(** * The selection parser of chemfiles ([src/selections/parser.cpp])

    A shallow embedding of the four stages that [parser.cpp] implements:
    the short-form rewriter [clean_token_stream], the shunting-yard
    reducer [shunting_yard], the recursive dispatcher [dispatch_parsing]
    and the entry point [parse].

    C++ exceptions and undefined behaviour are kept apart: a computation
    ends in a value, in a thrown [SelectionError], or in [Undefined] when
    it runs an operation whose behaviour the C++ standard leaves open
    ([std::stack::top] on an empty stack, dereferencing the end iterator). *)

From Stdlib Require Import String List ZArith Arith Bool Lia Permutation.
Import ListNotations.

Set Implicit Arguments.
Local Open Scope list_scope.

(* ================================================================= *)
(** ** Tokens *)

(** Modelled from the spec: the class [Token] of [selections/lexer.hpp] is
    not part of the sources at hand; its kinds are the ones the data model
    lists.  [IDENT] carries a string, [NUMBER] a numeric literal (the parser
    only moves it around, so it is carried as an integer), [VARIABLE] the
    position of an atom reference. *)
Inductive TokenType : Type :=
| T_LPAREN | T_RPAREN | T_COMMA
| T_EQ | T_NEQ | T_LT | T_LE | T_GT | T_GE
| T_NOT | T_AND | T_OR
| T_IDENT | T_NUMBER | T_VARIABLE.

Inductive Token : Type :=
| LPAREN | RPAREN | COMMA
| EQ | NEQ | LT | LE | GT | GE
| NOT | AND | OR
| IDENT (ident : string)
| NUMBER (number : Z)
| VARIABLE (variable : nat).

Module TokenType.

Definition eqb (a b : TokenType) : bool :=
  match a, b with
  | T_LPAREN, T_LPAREN | T_RPAREN, T_RPAREN | T_COMMA, T_COMMA
  | T_EQ, T_EQ | T_NEQ, T_NEQ | T_LT, T_LT | T_LE, T_LE
  | T_GT, T_GT | T_GE, T_GE
  | T_NOT, T_NOT | T_AND, T_AND | T_OR, T_OR
  | T_IDENT, T_IDENT | T_NUMBER, T_NUMBER | T_VARIABLE, T_VARIABLE => true
  | _, _ => false
  end.

Lemma eqb_spec (a b : TokenType) : reflect (a = b) (eqb a b).
Proof. destruct a, b; simpl; constructor; congruence. Qed.

End TokenType.

(** Modelled from the spec: [Token::type()]. *)
Definition type (t : Token) : TokenType :=
  match t with
  | LPAREN => T_LPAREN | RPAREN => T_RPAREN | COMMA => T_COMMA
  | EQ => T_EQ | NEQ => T_NEQ | LT => T_LT | LE => T_LE
  | GT => T_GT | GE => T_GE
  | NOT => T_NOT | AND => T_AND | OR => T_OR
  | IDENT _ => T_IDENT | NUMBER _ => T_NUMBER | VARIABLE _ => T_VARIABLE
  end.

(** Modelled from the spec: the predicates each token reports.
    [is_binary_op] holds of the six comparison operators only,
    [is_boolean_op] of [AND], [OR] and [NOT], [is_operator] of both. *)
Definition is_number (t : Token) : bool :=
  match t with NUMBER _ => true | _ => false end.

Definition is_variable (t : Token) : bool :=
  match t with VARIABLE _ => true | _ => false end.

Definition is_ident (t : Token) : bool :=
  match t with IDENT _ => true | _ => false end.

Definition is_boolean_op (t : Token) : bool :=
  match t with AND | OR | NOT => true | _ => false end.

Definition is_binary_op (t : Token) : bool :=
  match t with EQ | NEQ | LT | LE | GT | GE => true | _ => false end.

Definition is_operator (t : Token) : bool :=
  is_binary_op t || is_boolean_op t.

(** Modelled from the spec: [Token::ident()], the payload of an [IDENT]
    token.  It is only ever called behind an [is_ident] test. *)
Definition ident (t : Token) : string :=
  match t with IDENT s => s | _ => EmptyString end.

(* ================================================================= *)
(** ** Results of a computation *)

(** The messages of the [SelectionError]s that [parser.cpp] throws, one
    constructor per [throw]; the token or identifier that the C++ code
    appends to the message is the constructor's argument. *)
Inductive SelectionError : Type :=
| MismatchedOrComma       (* "Mismatched paretheses or additional comma found" *)
| MismatchedParentheses   (* "Mismatched parentheses" *)
| UnknownBooleanOperator  (* "Unknown boolean operator. This is a bug." *)
| BadBinaryOperation (around : Token) (* "Bad binary operation around " + str *)
| UnknownOperation (name : string)    (* "Unknown operation: " + ident *)
| CouldNotParse           (* "Could not parse the selection" *)
| CouldNotParseEnd        (* "Could not parse the end of the selection." *)
| BadOperands (node : string). (* raised by a node constructor of expr.cpp *)

Inductive Outcome (A : Type) : Type :=
| Ret (a : A)
| Throw (e : SelectionError)
| Undefined.

Arguments Throw {A} e.
Arguments Undefined {A}.

Definition bind {A B : Type} (c : Outcome A) (k : A -> Outcome B) : Outcome B :=
  match c with
  | Ret a => k a
  | Throw e => Throw e
  | Undefined => Undefined
  end.

Notation "x <- c ;; k" := (bind c (fun x => k))
  (at level 61, c at next level, right associativity).
Notation "' p <- c ;; k" := (bind c (fun x => match x with p => k end))
  (at level 61, p pattern, c at next level, right associativity).

Definition throws {A : Type} (c : Outcome A) : Prop :=
  exists e, c = Throw e.

(* ================================================================= *)
(** ** The function table *)

Record function_info_t : Type := { arity : nat }.

Definition FUNCTIONS : list (string * function_info_t) :=
  [ ("name"%string,  {| arity := 1 |});
    ("mass"%string,  {| arity := 1 |});
    ("index"%string, {| arity := 1 |});
    ("x"%string,     {| arity := 1 |});
    ("y"%string,     {| arity := 1 |});
    ("z"%string,     {| arity := 1 |});
    ("vx"%string,    {| arity := 1 |});
    ("vy"%string,    {| arity := 1 |});
    ("vz"%string,    {| arity := 1 |}) ].

(** [FUNCTIONS.find(key)], [None] standing for [FUNCTIONS.end()]. *)
Fixpoint map_find (key : string) (m : list (string * function_info_t))
  : option function_info_t :=
  match m with
  | [] => None
  | (k, v) :: m' => if String.eqb key k then Some v else map_find key m'
  end.

Definition is_function (token : Token) : bool :=
  is_ident token &&
  match map_find (ident token) FUNCTIONS with Some _ => true | None => false end.

Definition have_short_form (expr : string) : bool :=
  String.eqb expr "name" || String.eqb expr "index" || String.eqb expr "mass".

(* ================================================================= *)
(** ** Short-form rewriter *)

(** The loop of [clean_token_stream]: [it] is the head of the remaining
    stream and [next] the token after it, when there is one.  After the
    [continue] the loop goes on with [next], which is therefore handled as
    any other token. *)
Fixpoint clean_token_stream (stream : list Token) : list Token :=
  match stream with
  | [] => []
  | it :: rest =>
      if is_ident it && have_short_form (ident it) then
        match rest with
        | next :: _ =>
            if negb (is_operator next)
            then it :: EQ :: clean_token_stream rest
            else it :: clean_token_stream rest
        | [] => it :: clean_token_stream rest
        end
      else it :: clean_token_stream rest
  end.

(* ================================================================= *)
(** ** Shunting-yard reducer *)

Section Parser.

(** [Token::precedence()] lives in [lexer.cpp], which is not part of the
    sources at hand: the reducer is parametrised by it. *)
Variable precedence : Token -> nat.

(** [operators.top().type() != Token::LPAREN], as a proposition. *)
Definition not_lparen (t : Token) : Prop := type t <> T_LPAREN.

(** The operator stack has its top at the head of the list; the output
    vector grows at its end. *)
Definition push_back (output : list Token) (t : Token) : list Token :=
  output ++ [t].

(** The [COMMA] branch.  [operators.top()] is evaluated before any test of
    emptiness; the test only comes after a pop. *)
Fixpoint comma_loop (operators output : list Token)
  : Outcome (list Token * list Token) :=
  match operators with
  | [] => Undefined
  | top :: below =>
      if TokenType.eqb (type top) T_LPAREN then Ret (operators, output)
      else
        match below with
        | [] => Throw MismatchedOrComma
        | _ :: _ => comma_loop below (push_back output top)
        end
  end.

(** The loop of the operator branch. *)
Fixpoint operator_loop (token : Token) (operators output : list Token)
  : list Token * list Token :=
  match operators with
  | [] => (operators, output)
  | top :: below =>
      if precedence token <=? precedence top
      then operator_loop token below (push_back output top)
      else (operators, output)
  end.

(** The first loop of the [RPAREN] branch. *)
Fixpoint rparen_loop (operators output : list Token)
  : list Token * list Token :=
  match operators with
  | [] => (operators, output)
  | top :: below =>
      if negb (TokenType.eqb (type top) T_LPAREN)
      then rparen_loop below (push_back output top)
      else (operators, output)
  end.

(** The rest of the [RPAREN] branch: the test [is_function(operators.top())]
    and then the test for the open parenthesis. *)
Definition rparen_finish (operators output : list Token)
  : Outcome (list Token * list Token) :=
  match operators with
  | [] => Undefined
  | top :: below =>
      let '(operators, output) :=
        if is_function top then (below, push_back output top)
        else (operators, output) in
      match operators with
      | [] => Throw MismatchedParentheses
      | top :: below =>
          if negb (TokenType.eqb (type top) T_LPAREN)
          then Throw MismatchedParentheses
          else Ret (below, output)
      end
  end.

Definition rparen_step (operators output : list Token)
  : Outcome (list Token * list Token) :=
  let '(operators, output) := rparen_loop operators output in
  rparen_finish operators output.

(** One turn of the main loop on [token]. *)
Definition shunting_step (token : Token) (operators output : list Token)
  : Outcome (list Token * list Token) :=
  if is_number token || is_variable token then
    Ret (operators, push_back output token)
  else if is_ident token then
    if is_function token then Ret (token :: operators, output)
    else Ret (operators, push_back output token)
  else if TokenType.eqb (type token) T_COMMA then
    comma_loop operators output
  else if is_operator token then
    let '(operators, output) := operator_loop token operators output in
    Ret (token :: operators, output)
  else if TokenType.eqb (type token) T_LPAREN then
    Ret (token :: operators, output)
  else if TokenType.eqb (type token) T_RPAREN then
    rparen_step operators output
  else Ret (operators, output).

(** The main loop, from the current state. *)
Fixpoint shunting_loop (tokens operators output : list Token)
  : Outcome (list Token * list Token) :=
  match tokens with
  | [] => Ret (operators, output)
  | token :: tokens' =>
      '(operators, output) <- shunting_step token operators output ;;
      shunting_loop tokens' operators output
  end.

(** The loop that empties the stack at the end of the input. *)
Fixpoint drain (operators output : list Token) : Outcome (list Token) :=
  match operators with
  | [] => Ret output
  | top :: below =>
      if TokenType.eqb (type top) T_LPAREN || TokenType.eqb (type top) T_RPAREN
      then Throw MismatchedParentheses
      else drain below (push_back output top)
  end.

Definition shunting_yard (tokens : list Token) : Outcome (list Token) :=
  '(operators, output) <- shunting_loop tokens [] [] ;;
  output <- drain operators output ;;
  Ret (rev output).

End Parser.

(* ================================================================= *)
(** ** Syntax trees *)

(** Modelled from the spec: the node types of [selections/expr.hpp] are not
    part of the sources at hand.  One variant per predicate or combinator,
    named after the template argument [dispatch_parsing] passes to
    [parse<...>]. *)
Inductive CmpOp : Type := OpEq | OpNeq | OpLt | OpLe | OpGt | OpGe.

Inductive Axis : Type := AxisX | AxisY | AxisZ.

Inductive Ast : Type :=
| AllExpr
| NoneExpr
| NameExpr (op : CmpOp) (value : string)
| IndexExpr (op : CmpOp) (value : Z)
| MassExpr (op : CmpOp) (value : Z)
| PositionExpr (axis : Axis) (op : CmpOp) (value : Z)
| VelocityExpr (axis : Axis) (op : CmpOp) (value : Z)
| AndExpr (lhs rhs : Ast)
| OrExpr (lhs rhs : Ast)
| NotExpr (operand : Ast).

(** A parser takes the range [begin, end) as the list of its tokens and
    gives back the node with the range that is left, [begin] having moved. *)
Definition Parsed : Type := Outcome (Ast * list Token).

Definition cmp_op (t : Token) : option CmpOp :=
  match t with
  | EQ => Some OpEq | NEQ => Some OpNeq
  | LT => Some OpLt | LE => Some OpLe
  | GT => Some OpGt | GE => Some OpGe
  | _ => None
  end.

(** Modelled from the spec: [parse<AllExpr>] and [parse<NoneExpr>] of
    [expr.cpp], which is not part of the sources at hand.  A leaf selector
    takes the one token that names it. *)
Definition parse_AllExpr (rpn : list Token) : Parsed :=
  Ret (AllExpr, tl rpn).

Definition parse_NoneExpr (rpn : list Token) : Parsed :=
  Ret (NoneExpr, tl rpn).

(** Modelled from the spec: [parse<NameExpr>] of [expr.cpp].  The range
    reads [<op> <value> name]; the value has to be a string and the
    operator [==] or [!=], anything else is rejected when the node is
    built.  The three tokens are consumed. *)
Definition parse_NameExpr (rpn : list Token) : Parsed :=
  match rpn with
  | EQ :: IDENT value :: _ :: rest => Ret (NameExpr OpEq value, rest)
  | NEQ :: IDENT value :: _ :: rest => Ret (NameExpr OpNeq value, rest)
  | _ => Throw (BadOperands "name")
  end.

(** Modelled from the spec: the constructors of the numeric properties in
    [expr.cpp].  The range reads [<op> <value> <property>]; the value has
    to be a number, and any of the six comparisons is accepted. *)
Definition parse_numeric (node : string) (make : CmpOp -> Z -> Ast)
    (rpn : list Token) : Parsed :=
  match rpn with
  | op :: NUMBER value :: _ :: rest =>
      match cmp_op op with
      | Some o => Ret (make o value, rest)
      | None => Throw (BadOperands node)
      end
  | _ => Throw (BadOperands node)
  end.

Definition parse_IndexExpr : list Token -> Parsed :=
  parse_numeric "index" IndexExpr.

Definition parse_MassExpr : list Token -> Parsed :=
  parse_numeric "mass" MassExpr.

Definition axis_of (property : string) : Axis :=
  if String.eqb property "x" || String.eqb property "vx" then AxisX
  else if String.eqb property "y" || String.eqb property "vy" then AxisY
  else AxisZ.

Definition parse_PositionExpr (rpn : list Token) : Parsed :=
  parse_numeric "position" (PositionExpr (axis_of (ident (nth 2 rpn LPAREN)))) rpn.

Definition parse_VelocityExpr (rpn : list Token) : Parsed :=
  parse_numeric "velocity" (VelocityExpr (axis_of (ident (nth 2 rpn LPAREN)))) rpn.

(** The dispatcher and the combinators call each other.  The recursion is
    cut by a counter: [None] says that the counter ran out, which
    [dispatch_fuel_total] below shows not to happen from [dispatch_parsing]. *)
Definition Fueled : Type := option Parsed.

Definition fbind (c : Fueled) (k : Ast -> list Token -> Fueled) : Fueled :=
  match c with
  | None => None
  | Some (Ret (ast, rest)) => k ast rest
  | Some (Throw e) => Some (Throw e)
  | Some Undefined => Some Undefined
  end.

(** Modelled from the spec: [parse<AndExpr>], [parse<OrExpr>] and
    [parse<NotExpr>] of [expr.cpp].  The operator token is consumed, then
    the operands are parsed with the dispatcher, two for [AND] and [OR],
    one for [NOT].  The range is the reversed output of the reducer, so the
    operand that is met first is the right-hand one. *)
Definition parse_AndExpr (dispatch : list Token -> Fueled) (rpn : list Token)
  : Fueled :=
  fbind (dispatch (tl rpn)) (fun rhs rest =>
  fbind (dispatch rest) (fun lhs rest =>
  Some (Ret (AndExpr lhs rhs, rest)))).

Definition parse_OrExpr (dispatch : list Token -> Fueled) (rpn : list Token)
  : Fueled :=
  fbind (dispatch (tl rpn)) (fun rhs rest =>
  fbind (dispatch rest) (fun lhs rest =>
  Some (Ret (OrExpr lhs rhs, rest)))).

Definition parse_NotExpr (dispatch : list Token -> Fueled) (rpn : list Token)
  : Fueled :=
  fbind (dispatch (tl rpn)) (fun operand rest =>
  Some (Ret (NotExpr operand, rest))).

(* ================================================================= *)
(** ** Dispatcher and entry point *)

(** The identifiers that the comparison branch of [dispatch_parsing]
    recognises. *)
Definition known_properties : list string :=
  [ "name"; "index"; "mass"; "x"; "y"; "z"; "vx"; "vy"; "vz" ]%string.

(** The branch of [dispatch_parsing] for a comparison operator at [begin]. *)
Definition dispatch_binary (begin : Token) (rpn : list Token) : Parsed :=
  if (length rpn <? 3) || negb (TokenType.eqb (type (nth 2 rpn begin)) T_IDENT)
  then Throw (BadBinaryOperation begin)
  else
    let ident := ident (nth 2 rpn begin) in
    if String.eqb ident "name" then parse_NameExpr rpn
    else if String.eqb ident "index" then parse_IndexExpr rpn
    else if String.eqb ident "mass" then parse_MassExpr rpn
    else if String.eqb ident "x" || String.eqb ident "y" || String.eqb ident "z"
    then parse_PositionExpr rpn
    else if String.eqb ident "vx" || String.eqb ident "vy" || String.eqb ident "vz"
    then parse_VelocityExpr rpn
    else Throw (UnknownOperation ident).

(** The branch of [dispatch_parsing] for an identifier at [begin]. *)
Definition dispatch_ident (begin : Token) (rpn : list Token) : Parsed :=
  let ident := ident begin in
  if String.eqb ident "all" then parse_AllExpr rpn
  else if String.eqb ident "none" then parse_NoneExpr rpn
  else Throw (UnknownOperation ident).

(** [dispatch_parsing(begin, end)]: [begin] is dereferenced at once, which
    is undefined when the range is empty. *)
Fixpoint dispatch_fuel (fuel : nat) (rpn : list Token) : Fueled :=
  match fuel with
  | O => None
  | S fuel' =>
      match rpn with
      | [] => Some Undefined
      | begin :: _ =>
          if is_boolean_op begin then
            match type begin with
            | T_AND => parse_AndExpr (dispatch_fuel fuel') rpn
            | T_OR => parse_OrExpr (dispatch_fuel fuel') rpn
            | T_NOT => parse_NotExpr (dispatch_fuel fuel') rpn
            | _ => Some (Throw UnknownBooleanOperator)
            end
          else if is_binary_op begin then Some (dispatch_binary begin rpn)
          else if is_ident begin then Some (dispatch_ident begin rpn)
          else Some (Throw CouldNotParse)
      end
  end.

Definition dispatch_parsing (rpn : list Token) : Parsed :=
  match dispatch_fuel (S (length rpn)) rpn with
  | Some r => r
  | None => Undefined
  end.

(** A parser that returns has moved [begin] forward. *)
Definition consumes (rpn : list Token) (r : Parsed) : Prop :=
  forall ast rest, r = Ret (ast, rest) -> length rest < length rpn.

Section Parse.

Variable precedence : Token -> nat.

Definition parse (token_stream : list Token) : Outcome Ast :=
  let token_stream := clean_token_stream token_stream in
  rpn <- shunting_yard precedence token_stream ;;
  '(ast, rest) <- dispatch_parsing rpn ;;
  match rest with
  | [] => Ret ast
  | _ :: _ => Throw CouldNotParseEnd
  end.

End Parse.

(** Modelled from the spec: a table for [Token::precedence()], which
    [lexer.cpp] defines and the sources at hand do not show.  [NOT] binds
    tighter than [AND], [AND] tighter than [OR], a comparison tighter than
    every boolean operator.  A parenthesis is below every operator, so that
    an operator never pops it.  An identifier is not below a comparison: the
    comparison that follows a property name moves the name to the output
    ahead of the value, which is the layout [<op> <value> <property>] that
    [dispatch_parsing] reads through [begin[2]]. *)
Definition spec_precedence (t : Token) : nat :=
  match t with
  | LPAREN | RPAREN | COMMA => 0
  | OR => 10
  | AND => 20
  | NOT => 30
  | EQ | NEQ | LT | LE | GT | GE => 40
  | IDENT _ | NUMBER _ | VARIABLE _ => 50
  end.

(* ================================================================= *)
(** ** The rewriter as the specification words it *)

(** Position [i] of [stream] holds a short-form identifier that has a next
    token, and the next token is not an operator. *)
Definition rewrites_at (stream : list Token) (i : nat) : bool :=
  match nth_error stream i, nth_error stream (S i) with
  | Some t, Some next =>
      is_ident t && have_short_form (ident t) && negb (is_operator next)
  | _, _ => false
  end.

(** What position [i] of [stream] contributes to the rewritten stream: the
    token itself, followed by [EQ] where the position is rewritten. *)
Definition rewritten_token (stream : list Token) (i : nat) : list Token :=
  match nth_error stream i with
  | Some t => if rewrites_at stream i then [t; EQ] else [t]
  | None => []
  end.

(** The specification's rewriting: every position in order, each with its
    contribution. *)
Definition short_form_rewrite (stream : list Token) : list Token :=
  flat_map (rewritten_token stream) (seq 0 (length stream)).

(** The three selectors that have a short form, as the specification lists
    them. *)
Definition short_form_names : list string := ["name"; "index"; "mass"]%string.

(** [t] is an identifier token whose payload is one of the three names. *)
Definition is_short_form_identifier (t : Token) : bool :=
  match t with
  | IDENT payload => existsb (String.eqb payload) short_form_names
  | _ => false
  end.

(** The contribution of position [i] with the three names spelled out: the
    token, followed by [EQ] when it is one of the three identifiers and the
    position after it holds a token that is not an operator. *)
Definition rewritten_position (stream : list Token) (i : nat) : list Token :=
  match nth_error stream i with
  | None => []
  | Some t =>
      match nth_error stream (S i) with
      | Some next =>
          if is_short_form_identifier t && negb (is_operator next)
          then [t; EQ]
          else [t]
      | None => [t]
      end
  end.

Definition rewrite_short_forms (stream : list Token) : list Token :=
  flat_map (rewritten_position stream) (seq 0 (length stream)).

(* ================================================================= *)
(** ** Kinds of tokens in the reducer *)

(** Parentheses and commas: the tokens that the main loop of
    [shunting_yard] neither pushes to the output nor, the open parenthesis
    apart, to the stack. *)
Definition is_punctuation (t : Token) : bool :=
  TokenType.eqb (type t) T_LPAREN || TokenType.eqb (type t) T_RPAREN
  || TokenType.eqb (type t) T_COMMA.

(** The tokens that the main loop appends to the output as it reads them:
    numbers, variables and the identifiers that are not functions. *)
Definition is_operand (t : Token) : bool :=
  is_number t || is_variable t || (is_ident t && negb (is_function t)).

(** The tokens that the main loop pushes on the operator stack: functions,
    operators and open parentheses. *)
Definition is_stacked (t : Token) : bool :=
  is_function t || is_operator t || TokenType.eqb (type t) T_LPAREN.

(** The tokens that are left once parentheses and commas are removed. *)
Definition significant (tokens : list Token) : list Token :=
  filter (fun t => negb (is_punctuation t)) tokens.

(** The operands of a token sequence, in their order. *)
Definition operands (tokens : list Token) : list Token :=
  filter is_operand tokens.

(** The tokens other than [EQ] of a token sequence, in their order. *)
Definition without_eq (tokens : list Token) : list Token :=
  filter (fun t => negb (TokenType.eqb (type t) T_EQ)) tokens.

(** The precedence of an open parenthesis is below that of every
    operator. *)
Definition paren_below_operators (precedence : Token -> nat) : Prop :=
  forall op, is_operator op = true -> precedence LPAREN < precedence op.

(** Reading parentheses and commas from left to right at nesting depth
    [depth]: [None] when a close parenthesis or a comma is met at depth
    zero, and the depth at the end otherwise. *)
Fixpoint paren_scan (tokens : list Token) (depth : nat) : option nat :=
  match tokens with
  | [] => Some depth
  | t :: rest =>
      match type t, depth with
      | T_LPAREN, _ => paren_scan rest (S depth)
      | T_RPAREN, O => None
      | T_RPAREN, S depth' => paren_scan rest depth'
      | T_COMMA, O => None
      | _, _ => paren_scan rest depth
      end
  end.

(* ================================================================= *)
(** ** Counting the tokens of a reduced range *)

(** [all] and [none], the identifiers for which [dispatch_parsing] builds
    a node from the one token. *)
Definition is_leaf (t : Token) : bool :=
  is_ident t && (String.eqb (ident t) "all" || String.eqb (ident t) "none").

(** Identifiers, numbers and variables: the tokens that are neither
    operators nor punctuation. *)
Definition is_name (t : Token) : bool :=
  is_ident t || is_number t || is_variable t.

(** [AND] and [OR], the boolean operators with two operands. *)
Definition is_and_or (t : Token) : bool :=
  match t with AND | OR => true | _ => false end.

Definition count (f : Token -> bool) (tokens : list Token) : nat :=
  length (filter f tokens).

Definition starts_with_comparison (tokens : list Token) : bool :=
  match tokens with
  | t :: _ => is_binary_op t
  | [] => false
  end.

Definition ends_with_leaf (tokens : list Token) : bool :=
  is_leaf (last tokens LPAREN).

(** The number of [all] and [none] tokens of an output that are not
    directly followed by a comparison operator. *)
Fixpoint leaves (output : list Token) : nat :=
  match output with
  | [] => 0
  | t :: rest =>
      (if is_leaf t && negb (starts_with_comparison rest) then 1 else 0)
      + leaves rest
  end.

(** What the output of the reducer has to satisfy for [dispatch_parsing]
    to read the whole of it as one tree: it does not start with a
    comparison, it holds one more name than it holds operators with two
    operands, and its names are two per comparison plus the [all] and
    [none] that stand on their own. *)
Definition balanced (output : list Token) : Prop :=
  starts_with_comparison output = false /\
  count is_name output
  = count is_binary_op output + count is_and_or output + 1 /\
  leaves output + 2 * count is_binary_op output = count is_name output.

(** The bottom of the operator stack holds an operator. *)
Definition operator_at_bottom (operators : list Token) : bool :=
  is_operator (last operators LPAREN).

(** How the output [over_base] of a run that started above a stack that
    was not empty compares with the output [alone] of the same run above an
    empty stack, whose stack is now [operators]. *)
Definition follows (operators alone over_base : list Token) : Prop :=
  (ends_with_leaf over_base = true -> ends_with_leaf alone = true) /\
  leaves alone
  <= leaves over_base + (if operator_at_bottom operators then 1 else 0).

(* ================================================================= *)
(** ** Token sequences of a tree *)

Definition op_token (op : CmpOp) : Token :=
  match op with
  | OpEq => EQ | OpNeq => NEQ
  | OpLt => LT | OpLe => LE
  | OpGt => GT | OpGe => GE
  end.

Definition position_name (axis : Axis) : string :=
  match axis with AxisX => "x" | AxisY => "y" | AxisZ => "z" end.

Definition velocity_name (axis : Axis) : string :=
  match axis with AxisX => "vx" | AxisY => "vy" | AxisZ => "vz" end.

(** The range that [dispatch_parsing] reads a tree from: the operator
    first, then the right-hand operand, then the left-hand one; a comparison
    reads [<op> <value> <property>]. *)
Fixpoint prefix_form (ast : Ast) : list Token :=
  match ast with
  | AllExpr => [IDENT "all"]
  | NoneExpr => [IDENT "none"]
  | NameExpr op value => [op_token op; IDENT value; IDENT "name"]
  | IndexExpr op value => [op_token op; NUMBER value; IDENT "index"]
  | MassExpr op value => [op_token op; NUMBER value; IDENT "mass"]
  | PositionExpr axis op value =>
      [op_token op; NUMBER value; IDENT (position_name axis)]
  | VelocityExpr axis op value =>
      [op_token op; NUMBER value; IDENT (velocity_name axis)]
  | AndExpr lhs rhs => AND :: prefix_form rhs ++ prefix_form lhs
  | OrExpr lhs rhs => OR :: prefix_form rhs ++ prefix_form lhs
  | NotExpr operand => NOT :: prefix_form operand
  end.

(** A selection that denotes a tree: comparisons are written
    [<property> <op> <value>], and every combinator is written between
    parentheses. *)
Fixpoint infix_form (ast : Ast) : list Token :=
  match ast with
  | AllExpr => [IDENT "all"]
  | NoneExpr => [IDENT "none"]
  | NameExpr op value => [IDENT "name"; op_token op; IDENT value]
  | IndexExpr op value => [IDENT "index"; op_token op; NUMBER value]
  | MassExpr op value => [IDENT "mass"; op_token op; NUMBER value]
  | PositionExpr axis op value =>
      [IDENT (position_name axis); op_token op; NUMBER value]
  | VelocityExpr axis op value =>
      [IDENT (velocity_name axis); op_token op; NUMBER value]
  | AndExpr lhs rhs =>
      LPAREN :: infix_form lhs ++ AND :: infix_form rhs ++ [RPAREN]
  | OrExpr lhs rhs =>
      LPAREN :: infix_form lhs ++ OR :: infix_form rhs ++ [RPAREN]
  | NotExpr operand => LPAREN :: NOT :: infix_form operand ++ [RPAREN]
  end.

(** The name comparisons of a tree use [==] or [!=] only. *)
Fixpoint name_ops_ok (ast : Ast) : Prop :=
  match ast with
  | NameExpr op _ => op = OpEq \/ op = OpNeq
  | AndExpr lhs rhs | OrExpr lhs rhs => name_ops_ok lhs /\ name_ops_ok rhs
  | NotExpr operand => name_ops_ok operand
  | _ => True
  end.

(** No name of a tree is spelled like a function of the table. *)
Fixpoint plain_names (ast : Ast) : Prop :=
  match ast with
  | NameExpr _ value => is_function (IDENT value) = false
  | AndExpr lhs rhs | OrExpr lhs rhs => plain_names lhs /\ plain_names rhs
  | NotExpr operand => plain_names operand
  | _ => True
  end.

(** The precedences under which the reducer reads [infix_form]: an open
    parenthesis is below every operator, a boolean operator is below every
    comparison, and no comparison is above an identifier. *)
Record infix_precedence (precedence : Token -> nat) : Prop := {
  paren_low : paren_below_operators precedence;
  boolean_low :
    forall b c, is_boolean_op b = true -> is_binary_op c = true ->
                precedence b < precedence c;
  ident_high :
    forall c s, is_binary_op c = true -> precedence c <= precedence (IDENT s)
}.

(** What reading [infix_form ast] leaves on the stack, and what it has
    appended to the output by then: a comparison leaves its operator on the
    stack, a combinator between parentheses leaves nothing. *)
Definition pending (ast : Ast) : list Token :=
  match ast with
  | NameExpr op _ | IndexExpr op _ | MassExpr op _
  | PositionExpr _ op _ | VelocityExpr _ op _ => [op_token op]
  | _ => []
  end.

Definition emitted (ast : Ast) : list Token :=
  match ast with
  | NameExpr _ value => [IDENT "name"; IDENT value]
  | IndexExpr _ value => [IDENT "index"; NUMBER value]
  | MassExpr _ value => [IDENT "mass"; NUMBER value]
  | PositionExpr axis _ value => [IDENT (position_name axis); NUMBER value]
  | VelocityExpr axis _ value => [IDENT (velocity_name axis); NUMBER value]
  | _ => rev (prefix_form ast)
  end.

(** The top of the stack is below every comparison, or the stack is
    empty. *)
Definition quiet (precedence : Token -> nat) (operators : list Token) : Prop :=
  match operators with
  | [] => True
  | top :: _ => forall c, is_binary_op c = true -> precedence top < precedence c
  end.

(** The node that [dispatch_parsing] builds for the boolean operator [b]
    from its two operands. *)
Definition combine (b : Token) (lhs rhs : Ast) : Ast :=
  match b with
  | AND => AndExpr lhs rhs
  | _ => OrExpr lhs rhs
  end.

(** [AND] or [OR]. *)
Definition is_connective (b : Token) : Prop := b = AND \/ b = OR.

(* ================================================================= *)
(** * Properties *)

Unset Implicit Arguments.
Local Open Scope string_scope.
Local Open Scope list_scope.
Local Open Scope nat_scope.

(** ** The reducer's inner loops *)

Lemma type_lparen (t : Token) : type t = T_LPAREN -> t = LPAREN.
Proof. destruct t; simpl; congruence. Qed.

Lemma push_back_app (output above : list Token) (t : Token) :
  push_back output t ++ above = output ++ t :: above.
Proof. unfold push_back. now rewrite <- app_assoc. Qed.

Lemma rparen_loop_app (above rest output : list Token) :
  Forall not_lparen above ->
  rparen_loop (above ++ rest) output = rparen_loop rest (output ++ above).
Proof.
  intros H. revert output.
  induction H as [| t above Ht _ IH]; intros output; simpl.
  - now rewrite app_nil_r.
  - destruct (TokenType.eqb_spec (type t) T_LPAREN) as [E | _]; simpl.
    + contradiction.
    + now rewrite IH, push_back_app.
Qed.

Lemma rparen_loop_stops (operators output : list Token) :
  rparen_loop (LPAREN :: operators) output = (LPAREN :: operators, output).
Proof. reflexivity. Qed.

(** When the first loop of the [RPAREN] branch ends, the stack is empty or
    has an open parenthesis on top. *)
Lemma rparen_loop_result (operators output : list Token) :
  exists above rest,
    operators = above ++ rest /\
    Forall not_lparen above /\
    rparen_loop operators output = (rest, output ++ above) /\
    (rest = [] \/ exists below, rest = LPAREN :: below).
Proof.
  revert output.
  induction operators as [| t operators IH]; intros output.
  - exists [], []. simpl. rewrite app_nil_r. auto.
  - simpl. destruct (TokenType.eqb_spec (type t) T_LPAREN) as [E | N]; simpl.
    + apply type_lparen in E. subst t.
      exists [], (LPAREN :: operators). simpl. rewrite app_nil_r.
      repeat split; eauto.
    + destruct (IH (push_back output t)) as (above & rest & -> & Ha & Hl & Hr).
      exists (t :: above), rest. rewrite Hl, push_back_app.
      repeat split; auto.
Qed.

(** The [RPAREN] branch has two outcomes only: the open parenthesis is
    found and discarded, or the stack runs empty and [top()] is called on
    it.  Its [throw] is never reached. *)
Lemma rparen_step_cases (operators output : list Token) :
  (exists above below,
      operators = above ++ LPAREN :: below /\ Forall not_lparen above /\
      rparen_step operators output = Ret (below, output ++ above))
  \/ (Forall not_lparen operators /\ rparen_step operators output = Undefined).
Proof.
  destruct (rparen_loop_result operators output)
    as (above & rest & -> & Ha & Hl & [-> | [below ->]]).
  - right. rewrite app_nil_r in *. split; [assumption |].
    unfold rparen_step. now rewrite Hl.
  - left. exists above, below. repeat split; auto.
    unfold rparen_step. now rewrite Hl.
Qed.

Lemma rparen_step_unmatched (operators output : list Token) :
  Forall not_lparen operators ->
  rparen_step operators output = Undefined.
Proof.
  intros Hall.
  destruct (rparen_step_cases operators output)
    as [(above & below & -> & _ & _) | [_ E]]; [| exact E].
  apply Forall_app in Hall. destruct Hall as [_ Hall].
  inversion Hall as [| ? ? Hl _]. now elim Hl.
Qed.

(** ** C1: the function identifier below the open parenthesis *)

(** C1.  The claim says that a close parenthesis also moves to the output
    the function identifier that sits just below the matching open
    parenthesis.  The code tests [is_function(operators.top())] while the
    open parenthesis is still on top of the stack, so the test is false and
    the function identifier stays on the stack: after the step the stack is
    [fn :: below] and the output has gained the operators above the
    parenthesis and nothing else. *)
Theorem C1_rparen_leaves_function_on_stack :
  forall (above : list Token) (fn : Token) (below output : list Token),
    Forall not_lparen above ->
    is_function fn = true ->
    rparen_step (above ++ LPAREN :: fn :: below) output
    = Ret (fn :: below, output ++ above).
Proof.
  intros above fn below output Ha _.
  unfold rparen_step.
  rewrite (rparen_loop_app _ _ _ Ha), rparen_loop_stops.
  reflexivity.
Qed.

(** The state in which the tokens [x ( 1 )] reach their close
    parenthesis. *)
Lemma C1_rparen_leaves_function_on_stack_witness :
  rparen_step ([] ++ LPAREN :: IDENT "x" :: []) [NUMBER 1]
  = Ret ([IDENT "x"], [NUMBER 1] ++ []).
Proof.
  apply (C1_rparen_leaves_function_on_stack [] (IDENT "x") [] [NUMBER 1]).
  - constructor.
  - reflexivity.
Defined.

(** The same on whole runs, whatever the precedences: after [x ( 1 )] the
    function is still on the stack, and in [x ( 1 ) y ( 2 )] both functions
    reach the output only when the stack is emptied, after both arguments. *)
Lemma rparen_function_whole_run (precedence : Token -> nat) :
  shunting_loop precedence [IDENT "x"; LPAREN; NUMBER 1; RPAREN] [] []
  = Ret ([IDENT "x"], [NUMBER 1]) /\
  shunting_yard precedence
    [IDENT "x"; LPAREN; NUMBER 1; RPAREN; IDENT "y"; LPAREN; NUMBER 2; RPAREN]
  = Ret [IDENT "x"; IDENT "y"; NUMBER 2; NUMBER 1].
Proof. split; reflexivity. Qed.

(** ** C6: a close parenthesis without its open parenthesis *)

(** C6.  The claim says that an unmatched close parenthesis raises
    "Mismatched parentheses".  On the tokens of [name == foo)] the first
    loop of the [RPAREN] branch empties the stack and the next statement
    calls [operators.top()] on the empty stack: the run is undefined, for
    every precedence table. *)
Theorem C6_unmatched_rparen_is_undefined :
  forall precedence : Token -> nat,
    shunting_yard precedence [IDENT "name"; EQ; IDENT "foo"; RPAREN] = Undefined.
Proof.
  intros precedence. unfold shunting_yard. cbn.
  destruct (precedence EQ <=? precedence (IDENT "name")); reflexivity.
Qed.

(** ** C7: a comma outside parentheses *)

(** C7.  The claim says that a comma with no enclosing open parenthesis
    raises a [SelectionError], also when the operator stack is empty.  On
    the tokens of [1 , 2] the stack is empty when the comma is read and the
    loop condition calls [operators.top()] on it: the run is undefined, for
    every precedence table. *)
Theorem C7_comma_on_empty_stack_is_undefined :
  forall precedence : Token -> nat,
    shunting_yard precedence [NUMBER 1; COMMA; NUMBER 2] = Undefined.
Proof. intros precedence. reflexivity. Qed.

(** ** C3: the short-form rewriter *)

Lemma flat_map_shift (A : Type) (f : nat -> list A) (l : list nat) :
  flat_map f (map S l) = flat_map (fun i => f (S i)) l.
Proof. induction l as [| i l IH]; simpl; [reflexivity | now rewrite IH]. Qed.

Lemma short_form_rewrite_cons (t : Token) (stream : list Token) :
  short_form_rewrite (t :: stream)
  = rewritten_token (t :: stream) 0 ++ short_form_rewrite stream.
Proof.
  unfold short_form_rewrite. simpl length. simpl seq. simpl flat_map.
  f_equal. rewrite <- seq_shift, flat_map_shift.
  apply flat_map_ext. intros i. reflexivity.
Qed.

Lemma clean_token_stream_head (t : Token) (stream : list Token) :
  exists after, clean_token_stream (t :: stream) = t :: after.
Proof.
  simpl. destruct (is_ident t && have_short_form (ident t)).
  - destruct stream as [| next stream'].
    + eauto.
    + destruct (negb (is_operator next)); eauto.
  - eauto.
Qed.

Lemma clean_token_stream_refines (stream : list Token) :
  clean_token_stream stream = short_form_rewrite stream.
Proof.
  induction stream as [| t rest IH]; [reflexivity |].
  rewrite short_form_rewrite_cons, <- IH.
  unfold rewritten_token, rewrites_at. simpl.
  destruct (is_ident t && have_short_form (ident t)).
  - destruct rest as [| next rest']; [reflexivity |].
    simpl nth_error. simpl andb.
    destruct (negb (is_operator next)); reflexivity.
  - destruct rest; reflexivity.
Qed.

Lemma clean_token_stream_rewrites (stream : list Token) :
  forall (i : nat) (t next : Token),
    nth_error stream i = Some t ->
    nth_error stream (S i) = Some next ->
    is_ident t && have_short_form (ident t) = true ->
    is_operator next = false ->
    exists before after,
      clean_token_stream stream = before ++ t :: EQ :: next :: after.
Proof.
  induction stream as [| a rest IH]; intros i t next Hi Hn Hs Ho.
  - destruct i; discriminate.
  - destruct i as [| i].
    + simpl in Hi. injection Hi as ->.
      destruct rest as [| n rest']; [discriminate |].
      simpl in Hn. injection Hn as ->.
      destruct (clean_token_stream_head next rest') as [after E].
      exists [], after.
      change (clean_token_stream (t :: next :: rest'))
        with (if is_ident t && have_short_form (ident t)
              then if negb (is_operator next)
                   then t :: EQ :: clean_token_stream (next :: rest')
                   else t :: clean_token_stream (next :: rest')
              else t :: clean_token_stream (next :: rest')).
      now rewrite Hs, Ho, E.
    + destruct (IH i t next Hi Hn Hs Ho) as (before & after & E).
      simpl. rewrite E.
      destruct (is_ident a && have_short_form (ident a)).
      * destruct rest as [| n rest'].
        -- destruct i; discriminate.
        -- destruct (negb (is_operator n)).
           ++ exists (a :: EQ :: before), after. reflexivity.
           ++ exists (a :: before), after. reflexivity.
      * exists (a :: before), after. reflexivity.
Qed.

Lemma clean_token_stream_last (front : list Token) (t : Token) :
  exists before,
    clean_token_stream (front ++ [t]) = before ++ [t] /\
    length front <= length before.
Proof.
  induction front as [| a front IH].
  - exists []. split; [| apply Nat.le_refl].
    simpl. destruct (is_ident t && have_short_form (ident t)); reflexivity.
  - destruct IH as (before & E & L).
    simpl. rewrite E.
    destruct (is_ident a && have_short_form (ident a)).
    + destruct (front ++ [t]) as [| n rest'] eqn:F.
      * destruct front; discriminate.
      * destruct (negb (is_operator n)).
        -- exists (a :: EQ :: before). split; [reflexivity | simpl; lia].
        -- exists (a :: before). split; [reflexivity | simpl; lia].
    + exists (a :: before). split; [reflexivity | simpl; lia].
Qed.

Lemma have_short_form_names (expr : string) :
  have_short_form expr = true <->
  expr = "name" \/ expr = "index" \/ expr = "mass".
Proof.
  unfold have_short_form. rewrite !orb_true_iff, !String.eqb_eq. tauto.
Qed.

Lemma is_short_form_identifier_names (t : Token) :
  is_short_form_identifier t = true <->
  t = IDENT "name" \/ t = IDENT "index" \/ t = IDENT "mass".
Proof.
  destruct t as [| | | | | | | | | | | | payload | |];
    try (split; [discriminate | intros [H | [H | H]]; discriminate]).
  cbn [is_short_form_identifier short_form_names existsb].
  rewrite !orb_true_iff, !String.eqb_eq. split.
  - intros [-> | [-> | [-> | H]]]; auto. discriminate.
  - intros [[= ->] | [[= ->] | [= ->]]]; auto.
Qed.

Lemma is_short_form_identifier_code (t : Token) :
  is_short_form_identifier t = is_ident t && have_short_form (ident t).
Proof.
  destruct t; try reflexivity.
  cbn [is_short_form_identifier short_form_names existsb is_ident ident andb].
  unfold have_short_form. now rewrite orb_false_r, orb_assoc.
Qed.

Lemma rewrite_short_forms_code (stream : list Token) :
  rewrite_short_forms stream = short_form_rewrite stream.
Proof.
  unfold rewrite_short_forms, short_form_rewrite.
  apply flat_map_ext. intros i.
  unfold rewritten_position, rewritten_token, rewrites_at.
  destruct (nth_error stream i) as [t |]; [| reflexivity].
  destruct (nth_error stream (S i)) as [next |]; [| reflexivity].
  now rewrite is_short_form_identifier_code.
Qed.

(** C3.  The short-form identifiers of [clean_token_stream] are exactly the
    identifier tokens [name], [index] and [mass].  For every token sequence
    the result is the tokens of the input in their order, with an [EQ]
    inserted after each position that holds one of these three identifiers
    and is followed by a token that is not an operator: in the result such
    an identifier reads [identifier EQ next].  Every other token is copied
    as it is, and so is a token in the last position, with nothing after
    it. *)
Theorem C3_clean_token_stream_rewrites_short_forms :
  (forall t : Token,
      is_ident t && have_short_form (ident t) = true <->
      t = IDENT "name" \/ t = IDENT "index" \/ t = IDENT "mass") /\
  forall stream : list Token,
    clean_token_stream stream = rewrite_short_forms stream /\
    (forall (i : nat) (t next : Token),
        nth_error stream i = Some t ->
        nth_error stream (S i) = Some next ->
        t = IDENT "name" \/ t = IDENT "index" \/ t = IDENT "mass" ->
        is_operator next = false ->
        rewritten_position stream i = [t; EQ] /\
        exists before after,
          clean_token_stream stream = before ++ t :: EQ :: next :: after) /\
    (forall (i : nat) (t : Token),
        nth_error stream i = Some t ->
        t <> IDENT "name" /\ t <> IDENT "index" /\ t <> IDENT "mass" ->
        rewritten_position stream i = [t]) /\
    (forall (i : nat) (t next : Token),
        nth_error stream i = Some t ->
        nth_error stream (S i) = Some next ->
        is_operator next = true ->
        rewritten_position stream i = [t]) /\
    (forall (front : list Token) (t : Token),
        stream = front ++ [t] ->
        rewritten_position stream (length front) = [t] /\
        exists before, clean_token_stream stream = before ++ [t]).
Proof.
  split.
  { intros t. rewrite <- is_short_form_identifier_code.
    apply is_short_form_identifier_names. }
  intros stream. split; [| split; [| split; [| split]]].
  - rewrite rewrite_short_forms_code. apply clean_token_stream_refines.
  - intros i t next Hi Hn Ht Ho.
    apply is_short_form_identifier_names in Ht. split.
    + unfold rewritten_position. now rewrite Hi, Hn, Ht, Ho.
    + apply (clean_token_stream_rewrites stream i t next Hi Hn); [| exact Ho].
      now rewrite <- is_short_form_identifier_code.
  - intros i t Hi (H1 & H2 & H3).
    assert (is_short_form_identifier t = false) as Ht.
    { destruct (is_short_form_identifier t) eqn:E; [| reflexivity].
      apply is_short_form_identifier_names in E. tauto. }
    unfold rewritten_position. rewrite Hi, Ht.
    now destruct (nth_error stream (S i)).
  - intros i t next Hi Hn Ho.
    unfold rewritten_position. now rewrite Hi, Hn, Ho, andb_false_r.
  - intros front t ->. split.
    + unfold rewritten_position.
      assert (nth_error (front ++ [t]) (S (length front)) = None) as ->.
      { apply nth_error_None. rewrite length_app. simpl. lia. }
      rewrite nth_error_app2, Nat.sub_diag by lia. reflexivity.
    + destruct (clean_token_stream_last front t) as (before & E & _).
      now exists before.
Qed.

(** The theorem at [mass 12 and name foo or index]: the first two short
    forms are followed by a token that is not an operator and receive an
    [EQ], the last one ends the stream and is copied. *)
Lemma C3_clean_token_stream_rewrites_short_forms_witness :
  clean_token_stream
    [IDENT "mass"; NUMBER 12; AND; IDENT "name"; IDENT "foo"; OR;
     IDENT "index"]
  = [IDENT "mass"; EQ; NUMBER 12; AND; IDENT "name"; EQ; IDENT "foo"; OR;
     IDENT "index"] /\
  (exists before after,
      clean_token_stream [IDENT "name"; IDENT "foo"]
      = before ++ IDENT "name" :: EQ :: IDENT "foo" :: after) /\
  (exists before after,
      clean_token_stream [IDENT "all"; AND; IDENT "index"; NUMBER 3]
      = before ++ IDENT "index" :: EQ :: NUMBER 3 :: after) /\
  clean_token_stream [IDENT "x"; NUMBER 3] = [IDENT "x"; NUMBER 3].
Proof.
  destruct C3_clean_token_stream_rewrites_short_forms as [_ H].
  split; [| split; [| split]].
  - rewrite (proj1 (H _)). reflexivity.
  - apply (proj1 (proj2 (H [IDENT "name"; IDENT "foo"])) 0);
      [reflexivity | reflexivity | now left | reflexivity].
  - apply (proj1 (proj2 (H [IDENT "all"; AND; IDENT "index"; NUMBER 3])) 2);
      [reflexivity | reflexivity | now right; left | reflexivity].
  - rewrite (proj1 (H _)). reflexivity.
Defined.

Example clean_token_stream_examples :
  clean_token_stream [IDENT "name"; IDENT "foo"]
  = [IDENT "name"; EQ; IDENT "foo"] /\
  clean_token_stream [IDENT "index"; NEQ; NUMBER 3]
  = [IDENT "index"; NEQ; NUMBER 3] /\
  clean_token_stream [IDENT "x"; NUMBER 3] = [IDENT "x"; NUMBER 3] /\
  clean_token_stream [NOT; IDENT "mass"] = [NOT; IDENT "mass"] /\
  clean_token_stream [IDENT "name"; IDENT "mass"; NUMBER 12]
  = [IDENT "name"; EQ; IDENT "mass"; EQ; NUMBER 12].
Proof. repeat split. Qed.

(** ** The dispatcher never runs out of its counter *)

Lemma parse_NameExpr_consumes (rpn : list Token) (ast : Ast) (rest : list Token) :
  parse_NameExpr rpn = Ret (ast, rest) -> length rest < length rpn.
Proof.
  unfold parse_NameExpr.
  destruct rpn as [| op [| v [| p rpn']]]; try discriminate;
    destruct op; try discriminate; destruct v; try discriminate;
    intros [= _ <-]; simpl; lia.
Qed.

Lemma parse_numeric_consumes (node : string) (make : CmpOp -> Z -> Ast)
    (rpn : list Token) (ast : Ast) (rest : list Token) :
  parse_numeric node make rpn = Ret (ast, rest) -> length rest < length rpn.
Proof.
  unfold parse_numeric.
  destruct rpn as [| op [| v [| p rpn']]]; try discriminate;
    destruct v; try discriminate.
  destruct (cmp_op op); try discriminate.
  intros [= _ <-]. simpl. lia.
Qed.

Lemma dispatch_binary_consumes (begin : Token) (rpn : list Token)
    (ast : Ast) (rest : list Token) :
  dispatch_binary begin rpn = Ret (ast, rest) -> length rest < length rpn.
Proof.
  unfold dispatch_binary, parse_IndexExpr, parse_MassExpr,
    parse_PositionExpr, parse_VelocityExpr.
  repeat match goal with
         | |- context [if ?c then _ else _] => destruct c
         end;
    try discriminate;
    first [apply parse_NameExpr_consumes | apply parse_numeric_consumes].
Qed.

Lemma dispatch_ident_consumes (begin : Token) (rpn' : list Token)
    (ast : Ast) (rest : list Token) :
  dispatch_ident begin (begin :: rpn') = Ret (ast, rest) ->
  length rest < length (begin :: rpn').
Proof.
  unfold dispatch_ident, parse_AllExpr, parse_NoneExpr.
  repeat match goal with
         | |- context [if ?c then _ else _] => destruct c
         end;
    try discriminate; intros [= _ <-]; simpl; lia.
Qed.

Lemma dispatch_fuel_total (fuel : nat) :
  forall rpn : list Token,
    length rpn < fuel ->
    exists r, dispatch_fuel fuel rpn = Some r /\ consumes rpn r.
Proof.
  induction fuel as [| fuel IH]; intros rpn Hlen; [lia |].
  destruct rpn as [| begin rpn'].
  - exists Undefined. split; [reflexivity | discriminate].
  - simpl in Hlen.
    assert (Hsub : forall l, length l <= length rpn' ->
              exists r, dispatch_fuel fuel l = Some r /\ consumes l r)
      by (intros l Hl; apply IH; lia).
    cbn [dispatch_fuel].
    destruct (is_boolean_op begin) eqn:Hbool.
    + destruct begin; try discriminate; cbn [type];
        unfold parse_NotExpr, parse_AndExpr, parse_OrExpr; cbn [tl].
      * (* NOT *)
        destruct (Hsub rpn' (Nat.le_refl _)) as (r1 & -> & C1).
        destruct r1 as [[a1 l1] | e |]; cbn [fbind]; eexists;
          (split; [reflexivity |]); try discriminate.
        intros ast rest [= _ <-]. specialize (C1 _ _ eq_refl). simpl. lia.
      * (* AND *)
        destruct (Hsub rpn' (Nat.le_refl _)) as (r1 & -> & C1).
        destruct r1 as [[a1 l1] | e |]; cbn [fbind];
          try (eexists; split; [reflexivity | discriminate]).
        specialize (C1 _ _ eq_refl).
        destruct (Hsub l1 (Nat.lt_le_incl _ _ C1)) as (r2 & -> & C2).
        destruct r2 as [[a2 l2] | e |]; cbn [fbind]; eexists;
          (split; [reflexivity |]); try discriminate.
        intros ast rest [= _ <-]. specialize (C2 _ _ eq_refl). simpl. lia.
      * (* OR *)
        destruct (Hsub rpn' (Nat.le_refl _)) as (r1 & -> & C1).
        destruct r1 as [[a1 l1] | e |]; cbn [fbind];
          try (eexists; split; [reflexivity | discriminate]).
        specialize (C1 _ _ eq_refl).
        destruct (Hsub l1 (Nat.lt_le_incl _ _ C1)) as (r2 & -> & C2).
        destruct r2 as [[a2 l2] | e |]; cbn [fbind]; eexists;
          (split; [reflexivity |]); try discriminate.
        intros ast rest [= _ <-]. specialize (C2 _ _ eq_refl). simpl. lia.
    + destruct (is_binary_op begin).
      * eexists. split; [reflexivity |].
        intros ast rest. apply dispatch_binary_consumes.
      * destruct (is_ident begin).
        -- eexists. split; [reflexivity |].
           intros ast rest. apply dispatch_ident_consumes.
        -- eexists. split; [reflexivity | discriminate].
Qed.

(** [dispatch_parsing] is the dispatcher itself: its counter is enough for
    every range, and a node it returns has consumed at least one token. *)
Lemma dispatch_parsing_total (rpn : list Token) :
  dispatch_fuel (S (length rpn)) rpn = Some (dispatch_parsing rpn) /\
  consumes rpn (dispatch_parsing rpn).
Proof.
  unfold dispatch_parsing.
  destruct (dispatch_fuel_total (S (length rpn)) rpn (Nat.lt_succ_diag_r _))
    as (r & -> & C).
  now split.
Qed.

(** More of the counter changes nothing. *)
Lemma dispatch_fuel_mono (fuel : nat) :
  forall (rpn : list Token) (r : Parsed),
    dispatch_fuel fuel rpn = Some r ->
    forall fuel', fuel <= fuel' -> dispatch_fuel fuel' rpn = Some r.
Proof.
  induction fuel as [| fuel IH]; intros rpn r H fuel' Hle; [discriminate |].
  destruct fuel' as [| fuel']; [lia |].
  apply le_S_n in Hle.
  destruct rpn as [| begin rpn']; [exact H |].
  cbn [dispatch_fuel] in *.
  destruct (is_boolean_op begin); [| exact H].
  destruct (type begin); try exact H;
    unfold parse_AndExpr, parse_OrExpr, parse_NotExpr in *; cbn [tl] in *;
    destruct (dispatch_fuel fuel rpn') as [r1 |] eqn:E1; try discriminate;
    rewrite (IH _ _ E1 _ Hle);
    destruct r1 as [[a1 l1] | e |]; cbn [fbind] in *; try exact H;
    destruct (dispatch_fuel fuel l1) as [r2 |] eqn:E2; try discriminate;
    rewrite (IH _ _ E2 _ Hle); exact H.
Qed.

Lemma dispatch_fuel_enough (fuel : nat) (rpn : list Token) :
  length rpn < fuel -> dispatch_fuel fuel rpn = Some (dispatch_parsing rpn).
Proof.
  intros Hlen.
  apply (dispatch_fuel_mono (S (length rpn))); [| lia].
  apply dispatch_parsing_total.
Qed.

Lemma dispatch_fuel_boolean (fuel : nat) (rest : list Token) :
  dispatch_fuel (S fuel) (AND :: rest)
  = parse_AndExpr (dispatch_fuel fuel) (AND :: rest) /\
  dispatch_fuel (S fuel) (OR :: rest)
  = parse_OrExpr (dispatch_fuel fuel) (OR :: rest) /\
  dispatch_fuel (S fuel) (NOT :: rest)
  = parse_NotExpr (dispatch_fuel fuel) (NOT :: rest).
Proof. repeat split. Qed.

(** The recursive calls of the combinators, as calls of [dispatch_parsing]. *)
Lemma dispatch_parsing_and (rest : list Token) :
  dispatch_parsing (AND :: rest)
  = ('(rhs, rest1) <- dispatch_parsing rest ;;
     '(lhs, rest2) <- dispatch_parsing rest1 ;;
     Ret (AndExpr lhs rhs, rest2)).
Proof.
  unfold dispatch_parsing at 1.
  change (length (AND :: rest)) with (S (length rest)).
  rewrite (proj1 (dispatch_fuel_boolean _ rest)).
  unfold parse_AndExpr. cbn [tl].
  rewrite (dispatch_fuel_enough (S (length rest)) rest (Nat.lt_succ_diag_r _)).
  destruct (dispatch_parsing_total rest) as [_ C].
  destruct (dispatch_parsing rest) as [[rhs rest1] | e |]; cbn [fbind bind];
    try reflexivity.
  specialize (C _ _ eq_refl).
  rewrite (dispatch_fuel_enough (S (length rest)) rest1) by lia.
  destruct (dispatch_parsing rest1) as [[lhs rest2] | e |]; reflexivity.
Qed.

Lemma dispatch_parsing_or (rest : list Token) :
  dispatch_parsing (OR :: rest)
  = ('(rhs, rest1) <- dispatch_parsing rest ;;
     '(lhs, rest2) <- dispatch_parsing rest1 ;;
     Ret (OrExpr lhs rhs, rest2)).
Proof.
  unfold dispatch_parsing at 1.
  change (length (OR :: rest)) with (S (length rest)).
  rewrite (proj1 (proj2 (dispatch_fuel_boolean _ rest))).
  unfold parse_OrExpr. cbn [tl].
  rewrite (dispatch_fuel_enough (S (length rest)) rest (Nat.lt_succ_diag_r _)).
  destruct (dispatch_parsing_total rest) as [_ C].
  destruct (dispatch_parsing rest) as [[rhs rest1] | e |]; cbn [fbind bind];
    try reflexivity.
  specialize (C _ _ eq_refl).
  rewrite (dispatch_fuel_enough (S (length rest)) rest1) by lia.
  destruct (dispatch_parsing rest1) as [[lhs rest2] | e |]; reflexivity.
Qed.

Lemma dispatch_parsing_not (rest : list Token) :
  dispatch_parsing (NOT :: rest)
  = ('(operand, rest1) <- dispatch_parsing rest ;;
     Ret (NotExpr operand, rest1)).
Proof.
  unfold dispatch_parsing at 1.
  change (length (NOT :: rest)) with (S (length rest)).
  rewrite (proj2 (proj2 (dispatch_fuel_boolean _ rest))).
  unfold parse_NotExpr. cbn [tl].
  rewrite (dispatch_fuel_enough (S (length rest)) rest (Nat.lt_succ_diag_r _)).
  destruct (dispatch_parsing rest) as [[operand rest1] | e |]; reflexivity.
Qed.

(** ** C4: a comparison operator at the cursor *)

Lemma binary_op_not_boolean (t : Token) :
  is_binary_op t = true -> is_boolean_op t = false.
Proof. destruct t; simpl; congruence. Qed.

Lemma dispatch_parsing_binary (begin : Token) (rest : list Token) :
  is_binary_op begin = true ->
  dispatch_parsing (begin :: rest) = dispatch_binary begin (begin :: rest).
Proof.
  intros Hbin. unfold dispatch_parsing. cbn [dispatch_fuel].
  now rewrite (binary_op_not_boolean _ Hbin), Hbin.
Qed.

Ltac string_cases :=
  repeat match goal with
         | |- context [String.eqb ?a ?b] =>
             destruct (String.eqb_spec a b);
             cbn [orb andb negb] in *
         end.

(** C4, as amended.  With a comparison operator at the cursor, the
    dispatcher throws "Bad binary operation around <token>" when the range
    has fewer than three tokens or its third token [begin[2]] is not an
    identifier.  When the third token is an identifier, the dispatcher
    hands the range to the constructor the identifier selects ([name],
    [index], [mass], position for [x], [y], [z], velocity for [vx], [vy],
    [vz]) and, for any other identifier, throws "Unknown operation:
    <identifier>". *)
Theorem C4_dispatch_comparison :
  forall (begin : Token) (rest : list Token),
    is_binary_op begin = true ->
    (length (begin :: rest) < 3 \/ type (nth 2 (begin :: rest) begin) <> T_IDENT ->
     dispatch_parsing (begin :: rest) = Throw (BadBinaryOperation begin)) /\
    (forall (operand : Token) (property : string) (rest' : list Token),
        rest = operand :: IDENT property :: rest' ->
        (property = "name" ->
         dispatch_parsing (begin :: rest) = parse_NameExpr (begin :: rest)) /\
        (property = "index" ->
         dispatch_parsing (begin :: rest) = parse_IndexExpr (begin :: rest)) /\
        (property = "mass" ->
         dispatch_parsing (begin :: rest) = parse_MassExpr (begin :: rest)) /\
        (In property ["x"; "y"; "z"] ->
         dispatch_parsing (begin :: rest) = parse_PositionExpr (begin :: rest)) /\
        (In property ["vx"; "vy"; "vz"] ->
         dispatch_parsing (begin :: rest) = parse_VelocityExpr (begin :: rest)) /\
        (~ In property known_properties ->
         dispatch_parsing (begin :: rest) = Throw (UnknownOperation property))).
Proof.
  intros begin rest Hbin.
  rewrite (dispatch_parsing_binary begin rest Hbin).
  split.
  - intros [Hlen | Hty]; unfold dispatch_binary.
    + apply Nat.ltb_lt in Hlen. now rewrite Hlen.
    + destruct (TokenType.eqb_spec (type (nth 2 (begin :: rest) begin)) T_IDENT)
        as [E | _]; [contradiction |].
      now rewrite orb_true_r.
  - intros operand property rest' ->.
    unfold dispatch_binary. cbn [length nth Nat.ltb Nat.leb type ident
                                 TokenType.eqb orb negb].
    repeat split.
    + intros ->. reflexivity.
    + intros ->. reflexivity.
    + intros ->. reflexivity.
    + intros [<- | [<- | [<- | []]]]; reflexivity.
    + intros [<- | [<- | [<- | []]]]; reflexivity.
    + intros Hnot. unfold known_properties in Hnot. simpl in Hnot.
      string_cases; try reflexivity; exfalso; apply Hnot; subst; tauto.
Qed.

(** The range [== foo name], the reduced form of [name == foo]. *)
Lemma C4_dispatch_comparison_witness :
  dispatch_parsing [EQ; IDENT "foo"; IDENT "name"]
  = Ret (NameExpr OpEq "foo", []).
Proof.
  exact (proj1 (proj2 (C4_dispatch_comparison
                         EQ [IDENT "foo"; IDENT "name"] eq_refl)
                      (IDENT "foo") "name" [] eq_refl) eq_refl).
Defined.

(** C4, as stated, fails: the range [== foo bar] (the reduced form of
    [bar == foo]) has three tokens and an identifier in third position that
    names no property; the error is "Unknown operation: bar", not "Bad
    binary operation around ==". *)
Lemma C4_unknown_property_counterexample :
  dispatch_parsing [EQ; IDENT "foo"; IDENT "bar"]
  = Throw (UnknownOperation "bar") /\
  dispatch_parsing [EQ; IDENT "foo"; IDENT "bar"]
  <> Throw (BadBinaryOperation EQ).
Proof. split; [reflexivity | discriminate]. Qed.

(** ** C5: tokens left after the root node *)

Lemma parse_unfold (precedence : Token -> nat) (stream rpn : list Token)
    (ast : Ast) (rest : list Token) :
  shunting_yard precedence (clean_token_stream stream) = Ret rpn ->
  dispatch_parsing rpn = Ret (ast, rest) ->
  parse precedence stream
  = match rest with [] => Ret ast | _ :: _ => Throw CouldNotParseEnd end.
Proof. intros Hs Hd. unfold parse. rewrite Hs. simpl. now rewrite Hd. Qed.

(** ** C10: the empty range *)

Lemma dispatch_parsing_first_token (begin : Token) (rest : list Token) :
  is_boolean_op begin = false ->
  dispatch_parsing (begin :: rest) <> Undefined.
Proof.
  intros Hbool. unfold dispatch_parsing. cbn [dispatch_fuel]. rewrite Hbool.
  destruct (is_binary_op begin).
  - unfold dispatch_binary, parse_IndexExpr, parse_MassExpr,
      parse_PositionExpr, parse_VelocityExpr, parse_NameExpr, parse_numeric.
    repeat match goal with
           | |- context [if ?c then _ else _] => destruct c
           | |- context [match ?x with _ => _ end] => destruct x
           end; discriminate.
  - destruct (is_ident begin); [| discriminate].
    unfold dispatch_ident, parse_AllExpr, parse_NoneExpr.
    repeat match goal with
           | |- context [if ?c then _ else _] => destruct c
           end; discriminate.
Qed.

(** C10.  On the empty token stream the reducer returns the empty range
    and [dispatch_parsing] dereferences [begin] at once: [parse] is
    undefined there and throws no [SelectionError].  The dispatcher is
    undefined on the empty range whatever its counter, and on a range that
    is not empty the inspection of the first token is defined: it selects a
    branch, and the branches that do not recurse end in a node or in a
    [SelectionError]. *)
Theorem C10_empty_range_is_undefined :
  forall precedence : Token -> nat,
    shunting_yard precedence (clean_token_stream []) = Ret [] /\
    dispatch_parsing [] = Undefined /\
    (forall fuel, dispatch_fuel (S fuel) [] = Some Undefined) /\
    parse precedence [] = Undefined /\
    ~ throws (parse precedence []) /\
    (forall (begin : Token) (rest : list Token),
        is_boolean_op begin = false ->
        dispatch_parsing (begin :: rest) <> Undefined).
Proof.
  intros precedence. repeat split.
  - intros [e H]. discriminate.
  - intros begin rest. apply dispatch_parsing_first_token.
Qed.

(** ** C8: what an incoming operator pops *)

Lemma operator_loop_spec (precedence : Token -> nat) (token : Token)
    (operators : list Token) :
  forall output : list Token,
  exists popped kept,
    operators = popped ++ kept /\
    operator_loop precedence token operators output = (kept, output ++ popped) /\
    Forall (fun top => precedence token <= precedence top) popped /\
    (forall top below, kept = top :: below -> precedence top < precedence token).
Proof.
  induction operators as [| top below IH]; intros output.
  - exists [], []. simpl. rewrite app_nil_r. repeat split; auto. discriminate.
  - simpl. destruct (Nat.leb_spec (precedence token) (precedence top)) as [Hle | Hlt].
    + destruct (IH (push_back output top)) as (popped & kept & -> & E & Hall & Hkept).
      exists (top :: popped), kept. rewrite E, push_back_app. repeat split; auto.
    + exists [], (top :: below). rewrite app_nil_r. repeat split; auto.
      intros top' below' [= <- <-]. exact Hlt.
Qed.

(** C8, as amended.  An incoming operator pops to the output the longest
    run of tokens at the top of the stack whose precedence is greater than
    or equal to its own, in stack order, and nothing below that run.  The
    only test is the one on precedences: an open parenthesis is not popped
    when its precedence is below the operator's, and a function identifier
    on top of the stack is popped when the operator's precedence does not
    exceed its own. *)
Theorem C8_operator_pops_by_precedence :
  forall (precedence : Token -> nat) (token : Token)
         (operators output : list Token),
  exists popped kept,
    operators = popped ++ kept /\
    operator_loop precedence token operators output = (kept, output ++ popped) /\
    Forall (fun top => precedence token <= precedence top) popped /\
    (forall top below, kept = top :: below -> precedence top < precedence token) /\
    (precedence LPAREN < precedence token -> ~ In LPAREN popped) /\
    (forall fn below,
        operators = fn :: below -> is_function fn = true ->
        precedence token <= precedence fn ->
        exists popped', popped = fn :: popped').
Proof.
  intros precedence token operators output.
  destruct (operator_loop_spec precedence token operators output)
    as (popped & kept & Eops & E & Hall & Hkept).
  exists popped, kept. repeat split; auto.
  - intros Hlow Hin.
    rewrite Forall_forall in Hall. specialize (Hall _ Hin). lia.
  - intros fn below -> _ Hle.
    destruct popped as [| p popped'].
    + simpl in Eops. specialize (Hkept fn below (eq_sym Eops)). lia.
    + injection Eops as <- _. now exists popped'.
Qed.

Example operator_loop_examples :
  operator_loop spec_precedence AND [EQ; NOT; OR; LPAREN] []
  = ([OR; LPAREN], [EQ; NOT]) /\
  operator_loop spec_precedence OR [AND; OR; LPAREN; NOT] [NUMBER 1]
  = ([LPAREN; NOT], [NUMBER 1; AND; OR]) /\
  operator_loop spec_precedence NOT [LPAREN; EQ] [] = ([LPAREN; EQ], []).
Proof. repeat split. Qed.

(** Whatever the precedence table, if the tokens of [name == foo] parse to
    the node of that comparison, then [==] has popped the function
    identifier [name] from the stack. *)
Lemma parse_name_needs_pop (precedence : Token -> nat) :
  parse precedence [IDENT "name"; EQ; IDENT "foo"] = Ret (NameExpr OpEq "foo") ->
  operator_loop precedence EQ [IDENT "name"] [] = ([], [IDENT "name"]).
Proof.
  unfold parse, shunting_yard. cbn.
  destruct (precedence EQ <=? precedence (IDENT "name")).
  - reflexivity.
  - cbn. discriminate.
Qed.

(** C8, as stated, fails on its last part: [name] is a function
    identifier, and the [==] that follows it pops it from the stack to the
    output.  This is so under the table [spec_precedence], and under every
    table that lets [name == foo] parse to its node. *)
Lemma C8_function_identifier_popped_counterexample :
  is_function (IDENT "name") = true /\
  operator_loop spec_precedence EQ [IDENT "name"] [] = ([], [IDENT "name"]) /\
  (forall precedence : Token -> nat,
      parse precedence [IDENT "name"; EQ; IDENT "foo"]
      = Ret (NameExpr OpEq "foo") ->
      operator_loop precedence EQ [IDENT "name"] [] = ([], [IDENT "name"])).
Proof.
  split; [reflexivity | split; [reflexivity |]].
  exact parse_name_needs_pop.
Qed.

(** ** C2 and C9: trees of whole selections *)

(** C2.  With [or] below [and] below the comparisons, and identifiers not
    below the comparisons, the tokens of
    [name == foo or index == 3 and mass == 1] parse to
    [Or(Name(==,foo), And(Index(==,3), Mass(==,1)))]: [and] binds tighter
    than [or]. *)
Theorem C2_and_binds_tighter_than_or :
  forall precedence : Token -> nat,
    precedence OR < precedence AND ->
    precedence AND < precedence EQ ->
    (forall s, precedence EQ <= precedence (IDENT s)) ->
    parse precedence
      [IDENT "name"; EQ; IDENT "foo"; OR;
       IDENT "index"; EQ; NUMBER 3; AND;
       IDENT "mass"; EQ; NUMBER 1]
    = Ret (OrExpr (NameExpr OpEq "foo")
                  (AndExpr (IndexExpr OpEq 3) (MassExpr OpEq 1))).
Proof.
  intros precedence Hoa Hae Hid.
  assert (H1 : forall s, (precedence EQ <=? precedence (IDENT s)) = true)
    by (intros s; apply Nat.leb_le, Hid).
  assert (H2 : (precedence OR <=? precedence EQ) = true)
    by (apply Nat.leb_le; lia).
  assert (H3 : (precedence EQ <=? precedence OR) = false)
    by (apply Nat.leb_gt; lia).
  assert (H4 : (precedence AND <=? precedence EQ) = true)
    by (apply Nat.leb_le; lia).
  assert (H5 : (precedence AND <=? precedence OR) = false)
    by (apply Nat.leb_gt; lia).
  assert (H6 : (precedence EQ <=? precedence AND) = false)
    by (apply Nat.leb_gt; lia).
  unfold parse, shunting_yard.
  repeat (cbn; rewrite ?H1, ?H2, ?H3, ?H4, ?H5, ?H6).
  reflexivity.
Qed.

Lemma C2_and_binds_tighter_than_or_witness :
  parse spec_precedence
    [IDENT "name"; EQ; IDENT "foo"; OR;
     IDENT "index"; EQ; NUMBER 3; AND;
     IDENT "mass"; EQ; NUMBER 1]
  = Ret (OrExpr (NameExpr OpEq "foo")
                (AndExpr (IndexExpr OpEq 3) (MassExpr OpEq 1))).
Proof.
  apply (C2_and_binds_tighter_than_or spec_precedence).
  - simpl. lia.
  - simpl. lia.
  - intros s. simpl. lia.
Defined.

(** C9.  A short form and its long form parse to the same tree:
    [name foo] and [name == foo] both give [Name(==,foo)], [index 3] and
    [index == 3] both give [Index(==,3)], [mass 12] and [mass == 12] both
    give [Mass(==,12)]. *)
Theorem C9_short_form_equivalence :
  forall precedence : Token -> nat,
    (forall s, precedence EQ <= precedence (IDENT s)) ->
    (parse precedence [IDENT "name"; IDENT "foo"]
     = parse precedence [IDENT "name"; EQ; IDENT "foo"] /\
     parse precedence [IDENT "name"; EQ; IDENT "foo"]
     = Ret (NameExpr OpEq "foo")) /\
    (parse precedence [IDENT "index"; NUMBER 3]
     = parse precedence [IDENT "index"; EQ; NUMBER 3] /\
     parse precedence [IDENT "index"; EQ; NUMBER 3]
     = Ret (IndexExpr OpEq 3)) /\
    (parse precedence [IDENT "mass"; NUMBER 12]
     = parse precedence [IDENT "mass"; EQ; NUMBER 12] /\
     parse precedence [IDENT "mass"; EQ; NUMBER 12]
     = Ret (MassExpr OpEq 12)).
Proof.
  intros precedence Hid.
  assert (H1 : forall s, (precedence EQ <=? precedence (IDENT s)) = true)
    by (intros s; apply Nat.leb_le, Hid).
  repeat split; unfold parse, shunting_yard; cbn; rewrite ?H1; reflexivity.
Qed.

Lemma C9_short_form_equivalence_witness :
  parse spec_precedence [IDENT "name"; IDENT "foo"]
  = parse spec_precedence [IDENT "name"; EQ; IDENT "foo"].
Proof.
  refine (proj1 (proj1 (C9_short_form_equivalence spec_precedence _))).
  intros s. simpl. lia.
Defined.

(** The other selections the specification lists, under the table
    [spec_precedence]: negation scope, parentheses, and the rejected
    selections [name ==], [(name == foo], [x > foo] and [name > foo]. *)
Example parse_examples :
  parse spec_precedence
    [NOT; IDENT "name"; EQ; IDENT "foo"; AND; IDENT "index"; EQ; NUMBER 1]
  = Ret (AndExpr (NotExpr (NameExpr OpEq "foo")) (IndexExpr OpEq 1)) /\
  parse spec_precedence
    [LPAREN; IDENT "name"; EQ; IDENT "foo"; OR; IDENT "index"; EQ; NUMBER 3;
     RPAREN; AND; IDENT "mass"; EQ; NUMBER 1]
  = Ret (AndExpr (OrExpr (NameExpr OpEq "foo") (IndexExpr OpEq 3))
                 (MassExpr OpEq 1)) /\
  parse spec_precedence [IDENT "name"; EQ] = Throw (BadBinaryOperation EQ) /\
  parse spec_precedence [LPAREN; IDENT "name"; EQ; IDENT "foo"]
  = Throw MismatchedParentheses /\
  parse spec_precedence [IDENT "x"; GT; IDENT "foo"]
  = Throw (BadOperands "position") /\
  parse spec_precedence [IDENT "name"; GT; IDENT "foo"]
  = Throw (BadOperands "name").
Proof. repeat split. Qed.

(** The reducer on the selection of the comment that heads
    [shunting_yard] in [parser.cpp]. *)
Example shunting_yard_example :
  shunting_yard spec_precedence
    [IDENT "name"; EQ; IDENT "bar"; AND; IDENT "x"; LE; NUMBER 56]
  = Ret [AND; LE; NUMBER 56; IDENT "x"; EQ; IDENT "bar"; IDENT "name"].
Proof. reflexivity. Qed.

(** ** Further properties of the reducer and of the dispatcher *)

(** The [throw] of the [RPAREN] branch is never reached: the branch finds
    an open parenthesis and discards it, or calls [top()] on an empty
    stack. *)
Theorem rparen_branch_never_throws :
  forall (operators output : list Token) (e : SelectionError),
    rparen_step operators output <> Throw e.
Proof.
  intros operators output e.
  destruct (rparen_step_cases operators output)
    as [(above & below & _ & _ & ->) | [_ ->]]; discriminate.
Qed.

(** A comma read while the stack is not empty and holds no open
    parenthesis throws "Mismatched paretheses or additional comma found". *)
Theorem comma_without_paren_throws :
  forall (top : Token) (below output : list Token),
    Forall not_lparen (top :: below) ->
    comma_loop (top :: below) output = Throw MismatchedOrComma.
Proof.
  intros top below. revert top.
  induction below as [| t below IH]; intros top output H; simpl;
    inversion H as [| ? ? Htop Hbelow]; subst;
    destruct (TokenType.eqb_spec (type top) T_LPAREN) as [E | _];
    try contradiction; try reflexivity.
  now apply IH.
Qed.

Lemma comma_without_paren_throws_witness :
  comma_loop [EQ; AND] [IDENT "name"] = Throw MismatchedOrComma.
Proof.
  apply comma_without_paren_throws.
  repeat constructor; discriminate.
Defined.

(** A comma read inside parentheses pops the tokens above the innermost
    open parenthesis to the output and leaves the parenthesis on the
    stack. *)
Theorem comma_inside_paren_pops :
  forall above below output : list Token,
    Forall not_lparen above ->
    comma_loop (above ++ LPAREN :: below) output
    = Ret (LPAREN :: below, output ++ above).
Proof.
  intros above below output H. revert output.
  induction H as [| t above Ht _ IH]; intros output.
  - simpl. now rewrite app_nil_r.
  - simpl. destruct (TokenType.eqb_spec (type t) T_LPAREN) as [E | _];
      [contradiction |].
    destruct (above ++ LPAREN :: below) as [| t' l'] eqn:E.
    + destruct above; discriminate.
    + now rewrite IH, push_back_app.
Qed.

Lemma comma_inside_paren_pops_witness :
  comma_loop ([EQ] ++ LPAREN :: [IDENT "x"]) [NUMBER 1]
  = Ret ([LPAREN; IDENT "x"], [NUMBER 1] ++ [EQ]).
Proof.
  apply comma_inside_paren_pops.
  repeat constructor; discriminate.
Defined.

(** At the end of the input the stack is emptied to the output, top
    first; a parenthesis met on the way throws "Mismatched parentheses". *)
Theorem drain_spec :
  forall operators output : list Token,
    (Forall (fun t => type t <> T_LPAREN /\ type t <> T_RPAREN) operators ->
     drain operators output = Ret (output ++ operators)) /\
    (Exists (fun t => type t = T_LPAREN \/ type t = T_RPAREN) operators ->
     drain operators output = Throw MismatchedParentheses).
Proof.
  intros operators. induction operators as [| t operators IH]; intros output.
  - split.
    + intros _. simpl. now rewrite app_nil_r.
    + intros H. inversion H.
  - simpl.
    destruct (TokenType.eqb_spec (type t) T_LPAREN) as [El | Nl];
      [| destruct (TokenType.eqb_spec (type t) T_RPAREN) as [Er | Nr]];
      cbn [orb].
    + split; [| reflexivity].
      intros H. inversion H as [| ? ? [Hl _] _]. contradiction.
    + split; [| reflexivity].
      intros H. inversion H as [| ? ? [_ Hr] _]. contradiction.
    + destruct (IH (push_back output t)) as [IH1 IH2]. split.
      * intros H. inversion H as [| ? ? _ Hrest]. subst.
        now rewrite (IH1 Hrest), push_back_app.
      * intros H. inversion H as [? ? [Hl | Hr] | ? ? Hrest]; subst;
          [contradiction | contradiction | now apply IH2].
Qed.

(** A node that [dispatch_parsing] returns has consumed at least one
    token: the cursor has moved. *)
Theorem dispatch_parsing_consumes :
  forall (rpn : list Token) (ast : Ast) (rest : list Token),
    dispatch_parsing rpn = Ret (ast, rest) ->
    length rest < length rpn.
Proof.
  intros rpn ast rest H.
  exact (proj2 (dispatch_parsing_total rpn) ast rest H).
Qed.

Lemma dispatch_parsing_consumes_witness :
  length ([] : list Token) < length [EQ; IDENT "foo"; IDENT "name"].
Proof.
  apply (dispatch_parsing_consumes
           [EQ; IDENT "foo"; IDENT "name"] (NameExpr OpEq "foo") []).
  reflexivity.
Defined.

(** ** Whole runs that reach an undefined step *)

Lemma shunting_loop_app (precedence : Token -> nat) (before after : list Token) :
  forall operators output : list Token,
    shunting_loop precedence (before ++ after) operators output
    = ('(operators', output') <- shunting_loop precedence before operators output ;;
       shunting_loop precedence after operators' output').
Proof.
  induction before as [| token before IH]; intros operators output.
  - reflexivity.
  - simpl.
    destruct (shunting_step precedence token operators output)
      as [[operators' output'] | e |]; simpl; [apply IH | reflexivity ..].
Qed.

(** Every run of the reducer that reads a close parenthesis while the
    stack holds no open parenthesis is undefined, whatever the tokens
    before and after it. *)
Theorem shunting_yard_unmatched_rparen :
  forall (precedence : Token -> nat)
         (before after operators output : list Token),
    shunting_loop precedence before [] [] = Ret (operators, output) ->
    Forall not_lparen operators ->
    shunting_yard precedence (before ++ RPAREN :: after) = Undefined.
Proof.
  intros precedence before after operators output Hrun Hall.
  unfold shunting_yard. rewrite shunting_loop_app, Hrun.
  cbn [bind shunting_loop].
  change (shunting_step precedence RPAREN operators output)
    with (rparen_step operators output).
  now rewrite (rparen_step_unmatched operators output Hall).
Qed.

Lemma shunting_yard_unmatched_rparen_witness :
  shunting_yard spec_precedence
    ([IDENT "name"; EQ; IDENT "foo"] ++ RPAREN :: [AND; IDENT "all"])
  = Undefined.
Proof.
  apply (shunting_yard_unmatched_rparen spec_precedence
           [IDENT "name"; EQ; IDENT "foo"] [AND; IDENT "all"]
           [EQ] [IDENT "name"; IDENT "foo"]).
  - reflexivity.
  - repeat constructor; discriminate.
Defined.

(** Every run of the reducer that reads a comma while the stack is empty
    is undefined, whatever the tokens before and after it. *)
Theorem shunting_yard_comma_on_empty_stack :
  forall (precedence : Token -> nat) (before after output : list Token),
    shunting_loop precedence before [] [] = Ret ([], output) ->
    shunting_yard precedence (before ++ COMMA :: after) = Undefined.
Proof.
  intros precedence before after output Hrun.
  unfold shunting_yard. rewrite shunting_loop_app, Hrun. reflexivity.
Qed.

Lemma shunting_yard_comma_on_empty_stack_witness :
  shunting_yard spec_precedence
    ([IDENT "foo"; NUMBER 1] ++ COMMA :: [NUMBER 2])
  = Undefined.
Proof.
  apply (shunting_yard_comma_on_empty_stack spec_precedence
           [IDENT "foo"; NUMBER 1] [NUMBER 2] [IDENT "foo"; NUMBER 1]).
  reflexivity.
Defined.

(** ** Short forms anywhere in a selection *)

Lemma clean_token_stream_cons_congr (a : Token) (l1 l2 : list Token) :
  hd_error l1 = hd_error l2 ->
  clean_token_stream l1 = clean_token_stream l2 ->
  clean_token_stream (a :: l1) = clean_token_stream (a :: l2).
Proof.
  intros Hhd Hclean.
  destruct l1 as [| n1 l1], l2 as [| n2 l2]; try discriminate Hhd.
  - reflexivity.
  - injection Hhd as <-.
    change (clean_token_stream (a :: n1 :: l1))
      with (if is_ident a && have_short_form (ident a)
            then if negb (is_operator n1)
                 then a :: EQ :: clean_token_stream (n1 :: l1)
                 else a :: clean_token_stream (n1 :: l1)
            else a :: clean_token_stream (n1 :: l1)).
    rewrite Hclean. reflexivity.
Qed.

Lemma clean_token_stream_short_form (front : list Token) (property : string)
    (next : Token) (rest : list Token) :
  have_short_form property = true ->
  is_operator next = false ->
  clean_token_stream (front ++ IDENT property :: next :: rest)
  = clean_token_stream (front ++ IDENT property :: EQ :: next :: rest).
Proof.
  intros Hshort Hnext.
  induction front as [| a front IH].
  - cbn [app].
    change (clean_token_stream (IDENT property :: next :: rest))
      with (if is_ident (IDENT property) && have_short_form property
            then if negb (is_operator next)
                 then IDENT property :: EQ :: clean_token_stream (next :: rest)
                 else IDENT property :: clean_token_stream (next :: rest)
            else IDENT property :: clean_token_stream (next :: rest)).
    change (clean_token_stream (IDENT property :: EQ :: next :: rest))
      with (if is_ident (IDENT property) && have_short_form property
            then IDENT property :: EQ :: clean_token_stream (next :: rest)
            else IDENT property :: EQ :: clean_token_stream (next :: rest)).
    rewrite Hshort, Hnext. reflexivity.
  - cbn [app]. apply clean_token_stream_cons_congr; [| exact IH].
    destruct front; reflexivity.
Qed.

(** Wherever a short-form identifier stands in a selection, writing the
    [==] after it or leaving it out gives the same result of [parse],
    under every precedence table: the same tree, the same error, or the
    same undefined run. *)
Theorem parse_short_form_anywhere :
  forall (precedence : Token -> nat) (front : list Token) (property : string)
         (next : Token) (rest : list Token),
    have_short_form property = true ->
    is_operator next = false ->
    parse precedence (front ++ IDENT property :: next :: rest)
    = parse precedence (front ++ IDENT property :: EQ :: next :: rest).
Proof.
  intros precedence front property next rest Hshort Hnext.
  unfold parse.
  now rewrite (clean_token_stream_short_form front property next rest Hshort Hnext).
Qed.

Lemma parse_short_form_anywhere_witness :
  parse spec_precedence
    ([IDENT "all"; AND; NOT] ++ IDENT "mass" :: NUMBER 12 :: [OR; IDENT "none"])
  = parse spec_precedence
      ([IDENT "all"; AND; NOT] ++ IDENT "mass" :: EQ :: NUMBER 12 :: [OR; IDENT "none"]).
Proof.
  apply parse_short_form_anywhere; reflexivity.
Defined.

(** ** The rewriter: fixed points, canonical form, inserted tokens *)

Lemma rewrites_at_cons (a : Token) (stream : list Token) (i : nat) :
  rewrites_at (a :: stream) (S i) = rewrites_at stream i.
Proof. reflexivity. Qed.

Lemma rewrites_at_head (a next : Token) (rest : list Token) :
  rewrites_at (a :: next :: rest) 0
  = is_ident a && have_short_form (ident a) && negb (is_operator next).
Proof. reflexivity. Qed.

Lemma clean_token_stream_cons2 (a next : Token) (rest : list Token) :
  clean_token_stream (a :: next :: rest)
  = if rewrites_at (a :: next :: rest) 0
    then a :: EQ :: clean_token_stream (next :: rest)
    else a :: clean_token_stream (next :: rest).
Proof.
  rewrite rewrites_at_head.
  change (clean_token_stream (a :: next :: rest))
    with (if is_ident a && have_short_form (ident a)
          then if negb (is_operator next)
               then a :: EQ :: clean_token_stream (next :: rest)
               else a :: clean_token_stream (next :: rest)
          else a :: clean_token_stream (next :: rest)).
  destruct (is_ident a && have_short_form (ident a));
    destruct (negb (is_operator next)); reflexivity.
Qed.

Lemma clean_token_stream_single (a : Token) : clean_token_stream [a] = [a].
Proof.
  simpl. destruct (is_ident a && have_short_form (ident a)); reflexivity.
Qed.

(** The rewriter leaves a token sequence as it is exactly when no position
    of the sequence holds a short-form identifier followed by a token that
    is not an operator. *)
Theorem clean_token_stream_fixed_point :
  forall stream : list Token,
    clean_token_stream stream = stream <->
    (forall i, rewrites_at stream i = false).
Proof.
  induction stream as [| a rest IH]; [split; [intros _ [| i] |]; reflexivity |].
  destruct rest as [| next rest'].
  - rewrite clean_token_stream_single. split; [| reflexivity].
    intros _ i. unfold rewrites_at. destruct i as [| [| i]]; reflexivity.
  - rewrite clean_token_stream_cons2.
    destruct (rewrites_at (a :: next :: rest') 0) eqn:H0.
    + split.
      * intros [= E _]. rewrite rewrites_at_head in H0.
        rewrite <- E in H0. simpl in H0.
        now rewrite andb_false_r in H0.
      * intros H. now rewrite (H 0) in H0.
    + split.
      * intros [= E] [| i]; [exact H0 |].
        rewrite rewrites_at_cons. now apply IH.
      * intros H. f_equal. apply IH. intros i.
        rewrite <- (rewrites_at_cons a). apply H.
Qed.

Lemma rewrites_at_operator_next (a next : Token) (rest : list Token) :
  is_operator next = true -> rewrites_at (a :: next :: rest) 0 = false.
Proof.
  intros H. rewrite rewrites_at_head, H. now rewrite andb_false_r.
Qed.

Lemma clean_token_stream_canonical (stream : list Token) :
  forall i, rewrites_at (clean_token_stream stream) i = false.
Proof.
  induction stream as [| a rest IH]; intros i.
  - unfold rewrites_at. now destruct i.
  - destruct rest as [| next rest'].
    + rewrite clean_token_stream_single. unfold rewrites_at.
      destruct i as [| [| i]]; reflexivity.
    + rewrite clean_token_stream_cons2.
      destruct (clean_token_stream_head next rest') as [after E].
      destruct (rewrites_at (a :: next :: rest') 0) eqn:H0.
      * destruct i as [| [| i]].
        -- now apply rewrites_at_operator_next.
        -- rewrite rewrites_at_cons. rewrite E. reflexivity.
        -- rewrite !rewrites_at_cons. apply IH.
      * destruct i as [| i]; [| rewrite rewrites_at_cons; apply IH].
        rewrite E. rewrite rewrites_at_head in *. exact H0.
Qed.

(** In the result of the rewriter no short-form identifier is followed by
    a token that is not an operator, and running the rewriter on its own
    result changes nothing. *)
Theorem clean_token_stream_idempotent :
  forall stream : list Token,
    (forall i, rewrites_at (clean_token_stream stream) i = false) /\
    clean_token_stream (clean_token_stream stream) = clean_token_stream stream.
Proof.
  intros stream. split.
  - apply clean_token_stream_canonical.
  - apply clean_token_stream_fixed_point, clean_token_stream_canonical.
Qed.

(** The rewriter only inserts [EQ] tokens: the other tokens of the result
    are those of the input, in the same order.  It inserts at most one
    token after each token but the last. *)
Theorem clean_token_stream_inserts_eq_only :
  forall stream : list Token,
    without_eq (clean_token_stream stream) = without_eq stream /\
    length stream <= length (clean_token_stream stream) <= 2 * length stream - 1.
Proof.
  induction stream as [| a rest [IH1 IH2]]; [split; [reflexivity | simpl; lia] |].
  destruct rest as [| next rest'].
  - rewrite clean_token_stream_single. split; [reflexivity | simpl; lia].
  - rewrite clean_token_stream_cons2.
    destruct (rewrites_at (a :: next :: rest') 0); split.
    + unfold without_eq in *. cbn [filter type TokenType.eqb negb].
      now rewrite IH1.
    + cbn [length] in *. lia.
    + unfold without_eq in *. cbn [filter]. now rewrite IH1.
    + cbn [length] in *. lia.
Qed.

(** ** The reducer: what a turn of the main loop moves *)

Lemma token_kind (t : Token) :
  (is_stacked t = true /\ is_operand t = false) \/
  (is_stacked t = false /\ is_operand t = true /\ is_punctuation t = false) \/
  (is_stacked t = false /\ is_operand t = false /\ is_punctuation t = true).
Proof.
  destruct t; try (left; split; reflexivity);
    try (right; right; repeat split; reflexivity);
    try (right; left; repeat split; reflexivity).
  unfold is_stacked, is_operand, is_punctuation.
  cbn [is_number is_variable is_ident is_operator is_binary_op is_boolean_op
       type TokenType.eqb orb andb].
  destruct (is_function (IDENT ident0)); simpl; auto.
Qed.

Lemma stacked_not_operand (t : Token) :
  is_stacked t = true -> is_operand t = false.
Proof. destruct (token_kind t) as [[_ H] | [[H _] | [H _]]]; congruence. Qed.

Lemma comma_loop_ret (operators : list Token) :
  forall output operators' output',
    comma_loop operators output = Ret (operators', output') ->
    exists popped below,
      operators = popped ++ LPAREN :: below /\
      operators' = LPAREN :: below /\
      output' = output ++ popped /\
      Forall not_lparen popped.
Proof.
  induction operators as [| top rest IH]; intros output operators' output' H;
    [discriminate |].
  simpl in H.
  destruct (TokenType.eqb_spec (type top) T_LPAREN) as [E | N].
  - injection H as <- <-. apply type_lparen in E. subst top.
    exists [], rest. rewrite app_nil_r. auto.
  - destruct rest as [| t rest']; [discriminate |].
    destruct (IH _ _ _ H) as (popped & below & E1 & E2 & E3 & Hall).
    exists (top :: popped), below. rewrite E3, push_back_app.
    repeat split; auto. simpl. now rewrite E1.
Qed.

(** What one turn of the main loop does, when it returns: tokens [popped]
    move from the top of the stack to the output, an open parenthesis may
    be [dropped], and the token read is pushed on the stack, appended to
    the output, or neither, by its kind alone. *)
Lemma shunting_step_shape (precedence : Token -> nat) (token : Token)
    (operators output operators' output' : list Token) :
  shunting_step precedence token operators output = Ret (operators', output') ->
  exists popped dropped below,
    operators = popped ++ dropped ++ below /\
    operators' = (if is_stacked token then [token] else []) ++ below /\
    output' = output ++ popped ++ (if is_operand token then [token] else []) /\
    dropped = (if TokenType.eqb (type token) T_RPAREN then [LPAREN] else []) /\
    Forall (fun t => not_lparen t \/
                     (is_operator token = true /\
                      precedence token <= precedence t)) popped.
Proof.
  intros H.
  assert (Hop : is_operator token = true ->
          exists popped below,
            operators = popped ++ below /\ operators' = token :: below /\
            output' = output ++ popped /\
            Forall (fun t => precedence token <= precedence t) popped).
  { intros Hop.
    destruct (operator_loop_spec precedence token operators output)
      as (popped & kept & E & L & Hall & _).
    exists popped, kept.
    destruct token; try discriminate Hop; unfold shunting_step in H;
      cbn in H; rewrite L in H; injection H as <- <-; auto. }
  destruct token;
    try (destruct (Hop eq_refl) as (popped & below & E1 & E2 & E3 & Hall);
         exists popped, [], below; cbn [app]; rewrite app_nil_r;
         repeat split; auto;
         eapply Forall_impl; [| exact Hall]; cbn; auto);
    clear Hop; unfold shunting_step in H.
  - (* LPAREN *)
    cbn in H. injection H as <- <-. exists [], [], operators.
    cbn. rewrite app_nil_r. repeat split; auto.
  - (* RPAREN *)
    cbn in H.
    change (rparen_step operators output = Ret (operators', output')) in H.
    destruct (rparen_step_cases operators output)
      as [(above & below & E & Hall & R) | [_ R]]; rewrite R in H;
      [| discriminate].
    injection H as <- <-. exists above, [LPAREN], below.
    cbn. rewrite app_nil_r. repeat split; auto.
    eapply Forall_impl; [| exact Hall]. cbn. auto.
  - (* COMMA *)
    cbn in H.
    destruct (comma_loop_ret _ _ _ _ H) as (popped & below & E1 & E2 & E3 & Hall).
    exists popped, [], (LPAREN :: below).
    cbn. rewrite app_nil_r. repeat split; auto.
    eapply Forall_impl; [| exact Hall]. cbn. auto.
  - (* IDENT *)
    cbn [is_number is_variable is_ident orb] in H.
    unfold is_stacked, is_operand.
    cbn [is_number is_variable is_ident is_operator is_binary_op is_boolean_op
         type TokenType.eqb orb andb].
    destruct (is_function (IDENT ident0)); injection H as <- <-;
      exists [], [], operators; cbn; rewrite ?app_nil_r; repeat split; auto.
  - (* NUMBER *)
    cbn in H. injection H as <- <-.
    exists [], [], operators. cbn. repeat split; auto.
  - (* VARIABLE *)
    cbn in H. injection H as <- <-.
    exists [], [], operators. cbn. repeat split; auto.
Qed.

(** ** The reducer: tokens are neither lost nor invented *)

Lemma Token_eq_dec (a b : Token) : {a = b} + {a <> b}.
Proof.
  decide equality; [apply string_dec | apply Z.eq_dec | apply Nat.eq_dec].
Qed.

Lemma occ_app (x : Token) (l1 l2 : list Token) :
  count_occ Token_eq_dec (significant (l1 ++ l2)) x
  = count_occ Token_eq_dec (significant l1) x
    + count_occ Token_eq_dec (significant l2) x.
Proof. unfold significant. now rewrite filter_app, count_occ_app. Qed.

Lemma occ_token (x t : Token) :
  count_occ Token_eq_dec
    (significant ((if is_stacked t then [t] else [])
                  ++ (if is_operand t then [t] else []))) x
  = count_occ Token_eq_dec (significant [t]) x.
Proof.
  destruct (token_kind t) as [[-> ->] | [(-> & -> & _) | (-> & -> & H)]];
    try reflexivity.
  unfold significant. cbn. now rewrite H.
Qed.

Lemma shunting_loop_counts (precedence : Token -> nat) (tokens : list Token) :
  forall operators output operators' output',
    shunting_loop precedence tokens operators output
    = Ret (operators', output') ->
    forall x,
      count_occ Token_eq_dec (significant (operators' ++ output')) x
      = count_occ Token_eq_dec (significant tokens) x
        + count_occ Token_eq_dec (significant (operators ++ output)) x.
Proof.
  induction tokens as [| token tokens IH];
    intros operators output operators' output' H x.
  - injection H as <- <-. reflexivity.
  - cbn [shunting_loop] in H.
    destruct (shunting_step precedence token operators output)
      as [[ops1 out1] | e |] eqn:Hstep; try discriminate.
    cbn [bind] in H. rewrite (IH _ _ _ _ H x).
    destruct (shunting_step_shape _ _ _ _ _ _ Hstep)
      as (popped & dropped & below & -> & -> & -> & Hd & _).
    change (token :: tokens) with ([token] ++ tokens).
    rewrite !occ_app, <- (occ_token x token), !occ_app.
    assert (count_occ Token_eq_dec (significant dropped) x = 0) as ->
      by (rewrite Hd; destruct (TokenType.eqb (type token) T_RPAREN);
          reflexivity).
    lia.
Qed.

Lemma drain_ret (operators : list Token) :
  forall output result,
    drain operators output = Ret result ->
    result = output ++ operators /\
    Forall (fun t => type t <> T_LPAREN /\ type t <> T_RPAREN) operators.
Proof.
  induction operators as [| top below IH]; intros output result H.
  - injection H as <-. now rewrite app_nil_r.
  - simpl in H.
    destruct (TokenType.eqb_spec (type top) T_LPAREN) as [| Nl];
      [discriminate |].
    destruct (TokenType.eqb_spec (type top) T_RPAREN) as [| Nr];
      [discriminate |].
    destruct (IH _ _ H) as [-> Hall]. rewrite push_back_app.
    split; [reflexivity |]. now constructor.
Qed.

Lemma shunting_yard_ret (precedence : Token -> nat) (tokens rpn : list Token) :
  shunting_yard precedence tokens = Ret rpn ->
  exists operators output,
    shunting_loop precedence tokens [] [] = Ret (operators, output) /\
    drain operators output = Ret (output ++ operators) /\
    rpn = rev (output ++ operators).
Proof.
  unfold shunting_yard. intros H.
  destruct (shunting_loop precedence tokens [] [])
    as [[operators output] | e |]; try discriminate.
  cbn [bind] in H.
  destruct (drain operators output) as [result | e |] eqn:Hd; try discriminate.
  injection H as <-.
  destruct (drain_ret _ _ _ Hd) as [-> _].
  now exists operators, output.
Qed.

Lemma shunting_yard_counts (precedence : Token -> nat)
    (tokens rpn : list Token) :
  shunting_yard precedence tokens = Ret rpn ->
  forall x,
    count_occ Token_eq_dec (significant rpn) x
    = count_occ Token_eq_dec (significant tokens) x.
Proof.
  intros H x.
  destruct (shunting_yard_ret _ _ _ H) as (operators & output & Hloop & _ & ->).
  unfold significant at 1. rewrite filter_rev, count_occ_rev.
  fold (significant (output ++ operators)).
  pose proof (shunting_loop_counts _ _ _ _ _ _ Hloop x) as C.
  rewrite !occ_app in *. cbn in C. lia.
Qed.

(** Whatever the precedence table, a run of the reducer that returns has
    neither lost nor invented a token: apart from parentheses and commas,
    its result holds each token as many times as the input does. *)
Theorem shunting_yard_keeps_tokens :
  forall (precedence : Token -> nat) (tokens rpn : list Token),
    shunting_yard precedence tokens = Ret rpn ->
    Permutation (significant rpn) (significant tokens).
Proof.
  intros precedence tokens rpn H.
  apply (Permutation_count_occ Token_eq_dec).
  exact (shunting_yard_counts precedence tokens rpn H).
Qed.

Lemma shunting_yard_keeps_tokens_witness :
  Permutation
    (significant [AND; EQ; NUMBER 3; IDENT "index"; EQ; IDENT "foo"; IDENT "name"])
    (significant [LPAREN; IDENT "name"; EQ; IDENT "foo"; RPAREN; AND;
                  IDENT "index"; EQ; NUMBER 3]).
Proof.
  apply (shunting_yard_keeps_tokens spec_precedence).
  reflexivity.
Defined.

(** ** The reducer: operands keep their order *)

Lemma Forall_app_l (P : Token -> Prop) (l1 l2 : list Token) :
  Forall P (l1 ++ l2) -> Forall P l1.
Proof. intros H. now apply Forall_app in H. Qed.

Lemma Forall_app_r (P : Token -> Prop) (l1 l2 : list Token) :
  Forall P (l1 ++ l2) -> Forall P l2.
Proof. intros H. now apply Forall_app in H. Qed.

Lemma operands_stacked (l : list Token) :
  Forall (fun t => is_stacked t = true) l -> operands l = [].
Proof.
  induction 1 as [| t l Ht _ IH]; [reflexivity |].
  unfold operands in *. cbn. now rewrite (stacked_not_operand t Ht).
Qed.

Lemma shunting_step_stacked (precedence : Token -> nat) (token : Token)
    (operators output operators' output' : list Token) :
  shunting_step precedence token operators output = Ret (operators', output') ->
  Forall (fun t => is_stacked t = true) operators ->
  Forall (fun t => is_stacked t = true) operators' /\
  operands output' = operands output ++ operands [token].
Proof.
  intros Hstep Hall.
  destruct (shunting_step_shape _ _ _ _ _ _ Hstep)
    as (popped & dropped & below & -> & -> & -> & _ & _).
  split.
  - apply Forall_app. split.
    + destruct (is_stacked token) eqn:E; repeat constructor. exact E.
    + now apply Forall_app_r, Forall_app_r in Hall.
  - unfold operands in *. rewrite !filter_app.
    fold (operands popped).
    rewrite (operands_stacked popped (Forall_app_l _ _ _ Hall)).
    cbn. destruct (is_operand token) eqn:E; cbn; now rewrite ?E.
Qed.

Lemma shunting_loop_stacked (precedence : Token -> nat) (tokens : list Token) :
  forall operators output operators' output',
    shunting_loop precedence tokens operators output
    = Ret (operators', output') ->
    Forall (fun t => is_stacked t = true) operators ->
    Forall (fun t => is_stacked t = true) operators' /\
    operands output' = operands output ++ operands tokens.
Proof.
  induction tokens as [| token tokens IH];
    intros operators output operators' output' H Hall.
  - injection H as <- <-. split; [exact Hall |].
    unfold operands. cbn. now rewrite app_nil_r.
  - cbn [shunting_loop] in H.
    destruct (shunting_step precedence token operators output)
      as [[ops1 out1] | e |] eqn:Hstep; try discriminate.
    cbn [bind] in H.
    destruct (shunting_step_stacked _ _ _ _ _ _ Hstep Hall) as [Hall1 E1].
    destruct (IH _ _ _ _ H Hall1) as [Hall' E'].
    split; [exact Hall' |].
    rewrite E', E1, <- app_assoc. f_equal.
    unfold operands. change (token :: tokens) with ([token] ++ tokens).
    now rewrite filter_app.
Qed.

(** Whatever the precedence table, the numbers, the variables and the
    identifiers that are not functions leave the reducer in the order in
    which they were read: read backwards, the result of a run that returns
    holds the operands of the input, in the same order. *)
Theorem shunting_yard_keeps_operand_order :
  forall (precedence : Token -> nat) (tokens rpn : list Token),
    shunting_yard precedence tokens = Ret rpn ->
    operands (rev rpn) = operands tokens.
Proof.
  intros precedence tokens rpn H.
  destruct (shunting_yard_ret _ _ _ H) as (operators & output & Hloop & _ & ->).
  rewrite rev_involutive.
  destruct (shunting_loop_stacked _ _ _ _ _ _ Hloop (Forall_nil _)) as [Hall E].
  unfold operands in *. rewrite filter_app.
  fold (operands operators). rewrite (operands_stacked operators Hall).
  now rewrite app_nil_r, E.
Qed.

Lemma shunting_yard_keeps_operand_order_witness :
  operands (rev [OR; EQ; NUMBER 2; IDENT "mass"; EQ; IDENT "foo"; IDENT "name"])
  = operands [IDENT "name"; EQ; IDENT "foo"; OR; IDENT "mass"; EQ; NUMBER 2].
Proof.
  apply (shunting_yard_keeps_operand_order spec_precedence).
  reflexivity.
Defined.

(** ** The reducer: no parenthesis in the result *)

Lemma stacked_not_lparen (t : Token) :
  is_stacked t = true -> not_lparen t -> is_punctuation t = false.
Proof.
  unfold not_lparen. destruct t; cbn; try reflexivity; try discriminate.
  intros _ H. now elim H.
Qed.

Lemma not_lparen_count (l : list Token) :
  Forall not_lparen l <-> count_occ Token_eq_dec l LPAREN = 0.
Proof.
  rewrite <- count_occ_not_In, Forall_forall. unfold not_lparen. split.
  - intros H Hin. now apply (H _ Hin).
  - intros H t Hin E. apply type_lparen in E. now subst.
Qed.

Lemma popped_not_lparen (precedence : Token -> nat) (token : Token)
    (popped : list Token) :
  paren_below_operators precedence ->
  Forall (fun t => not_lparen t \/
                   (is_operator token = true /\
                    precedence token <= precedence t)) popped ->
  Forall not_lparen popped.
Proof.
  intros Hprec H. eapply Forall_impl; [| exact H].
  intros t [N | [Hop Hle]]; [exact N |].
  intros E. apply type_lparen in E. subst t.
  specialize (Hprec token Hop). lia.
Qed.

Lemma Forall_stacked_not_lparen (l : list Token) :
  Forall (fun t => is_stacked t = true) l ->
  Forall not_lparen l ->
  Forall (fun t => is_punctuation t = false) l.
Proof.
  intros Hs Hn. induction Hs as [| t l Ht _ IH]; constructor.
  - inversion Hn. now apply stacked_not_lparen.
  - inversion Hn. now apply IH.
Qed.

Lemma shunting_loop_output (precedence : Token -> nat) (tokens : list Token) :
  paren_below_operators precedence ->
  forall operators output operators' output',
    shunting_loop precedence tokens operators output
    = Ret (operators', output') ->
    Forall (fun t => is_stacked t = true) operators ->
    Forall (fun t => is_punctuation t = false) output ->
    Forall (fun t => is_punctuation t = false) output'.
Proof.
  intros Hprec.
  induction tokens as [| token tokens IH];
    intros operators output operators' output' H Hs Ho.
  - now injection H as <- <-.
  - cbn [shunting_loop] in H.
    destruct (shunting_step precedence token operators output)
      as [[ops1 out1] | e |] eqn:Hstep; try discriminate.
    cbn [bind] in H.
    destruct (shunting_step_stacked _ _ _ _ _ _ Hstep Hs) as [Hs1 _].
    apply (IH _ _ _ _ H Hs1).
    destruct (shunting_step_shape _ _ _ _ _ _ Hstep)
      as (popped & dropped & below & -> & _ & -> & _ & Hp).
    apply Forall_app. split; [exact Ho |].
    apply Forall_app. split.
    + apply Forall_stacked_not_lparen.
      * now apply Forall_app_l in Hs.
      * exact (popped_not_lparen _ _ _ Hprec Hp).
    + destruct (token_kind token) as [[_ ->] | [(_ & -> & E) | (_ & -> & _)]];
        repeat constructor. exact E.
Qed.

(** When the precedence of the open parenthesis is below that of every
    operator, the result of a run that returns holds no parenthesis and no
    comma: it is a rearrangement of the other tokens of the input. *)
Theorem shunting_yard_result_has_no_punctuation :
  forall (precedence : Token -> nat) (tokens rpn : list Token),
    paren_below_operators precedence ->
    shunting_yard precedence tokens = Ret rpn ->
    Forall (fun t => is_punctuation t = false) rpn /\
    Permutation rpn (significant tokens).
Proof.
  intros precedence tokens rpn Hprec H.
  assert (Hall : Forall (fun t => is_punctuation t = false) rpn).
  { destruct (shunting_yard_ret _ _ _ H)
      as (operators & output & Hloop & Hdrain & ->).
    apply Forall_rev, Forall_app. split.
    - exact (shunting_loop_output _ _ Hprec _ _ _ _ Hloop
               (Forall_nil _) (Forall_nil _)).
    - destruct (shunting_loop_stacked _ _ _ _ _ _ Hloop (Forall_nil _))
        as [Hs _].
      destruct (drain_ret _ _ _ Hdrain) as [_ Hd].
      apply Forall_stacked_not_lparen; [exact Hs |].
      eapply Forall_impl; [| exact Hd]. intros t [N _]. exact N. }
  split; [exact Hall |].
  rewrite <- (proj2 (Permutation_count_occ Token_eq_dec _ _)
                 (shunting_yard_counts _ _ _ H)).
  unfold significant. rewrite forallb_filter_id; [reflexivity |].
  apply forallb_forall. intros t Hin.
  rewrite Forall_forall in Hall. now rewrite (Hall t Hin).
Qed.

Lemma shunting_yard_result_has_no_punctuation_witness :
  Forall (fun t => is_punctuation t = false)
    [NOT; EQ; IDENT "foo"; IDENT "name"] /\
  Permutation [NOT; EQ; IDENT "foo"; IDENT "name"]
    (significant [NOT; LPAREN; IDENT "name"; EQ; IDENT "foo"; RPAREN]).
Proof.
  apply (shunting_yard_result_has_no_punctuation spec_precedence).
  - intros op Hop. destruct op; try discriminate Hop; simpl; lia.
  - reflexivity.
Defined.

(** ** The reducer: which token sequences it reduces *)

Lemma comma_loop_cases (operators : list Token) :
  forall output,
    (operators = [] /\ comma_loop operators output = Undefined) \/
    (operators <> [] /\ Forall not_lparen operators /\
     comma_loop operators output = Throw MismatchedOrComma) \/
    (exists above below,
        operators = above ++ LPAREN :: below /\ Forall not_lparen above /\
        comma_loop operators output = Ret (LPAREN :: below, output ++ above)).
Proof.
  induction operators as [| top rest IH]; intros output; [left; auto |].
  right. cbn [comma_loop].
  destruct (TokenType.eqb_spec (type top) T_LPAREN) as [E | N].
  - right. apply type_lparen in E. subst top.
    exists [], rest. rewrite app_nil_r. auto.
  - destruct rest as [| t rest'].
    + left. split; [discriminate | split; [| reflexivity]].
      repeat constructor. exact N.
    + destruct (IH (push_back output top))
        as [[E _] | [(_ & Hall & ->) | (above & below & E & Hall & ->)]].
      * discriminate.
      * left. split; [discriminate | split; [now constructor | reflexivity]].
      * right. exists (top :: above), below. rewrite push_back_app.
        split; [simpl; now rewrite E | split; [now constructor | reflexivity]].
Qed.

Lemma drain_cases (operators : list Token) :
  forall output,
    (Forall (fun t => type t <> T_LPAREN /\ type t <> T_RPAREN) operators /\
     drain operators output = Ret (output ++ operators)) \/
    (Exists (fun t => type t = T_LPAREN \/ type t = T_RPAREN) operators /\
     drain operators output = Throw MismatchedParentheses).
Proof.
  induction operators as [| top below IH]; intros output.
  - left. simpl. now rewrite app_nil_r.
  - simpl.
    destruct (TokenType.eqb_spec (type top) T_LPAREN) as [El | Nl];
      [right; split; [left; now left | reflexivity] |].
    destruct (TokenType.eqb_spec (type top) T_RPAREN) as [Er | Nr];
      [right; split; [left; now right | reflexivity] |].
    cbn [orb].
    destruct (IH (push_back output top)) as [[Hall ->] | [Hex ->]].
    + left. rewrite push_back_app. split; [now constructor | reflexivity].
    + right. split; [now right | reflexivity].
Qed.

Lemma stacked_not_rparen (t : Token) :
  is_stacked t = true -> type t <> T_RPAREN.
Proof. destruct t; cbn; congruence. Qed.

(** The stack holds functions, operators and open parentheses only, of
    which [depth] open parentheses. *)
Definition stack_at_depth (operators : list Token) (depth : nat) : Prop :=
  Forall (fun t => is_stacked t = true) operators /\
  count_occ Token_eq_dec operators LPAREN = depth.

Lemma shunting_step_defined (precedence : Token -> nat) (token : Token)
    (operators output : list Token) :
  is_punctuation token = false ->
  exists operators' output',
    shunting_step precedence token operators output = Ret (operators', output').
Proof.
  intros Hp. unfold shunting_step.
  destruct token; try discriminate Hp;
    cbn [is_number is_variable is_ident is_operator is_binary_op is_boolean_op
         type TokenType.eqb orb];
    try (destruct (operator_loop precedence _ operators output); eauto);
    try (destruct (is_function _); eauto); eauto.
Qed.

Lemma shunting_step_same_depth (precedence : Token -> nat) (token : Token)
    (operators output : list Token) (depth : nat) :
  paren_below_operators precedence ->
  is_punctuation token = false ->
  stack_at_depth operators depth ->
  exists operators' output',
    shunting_step precedence token operators output = Ret (operators', output') /\
    stack_at_depth operators' depth.
Proof.
  intros Hprec Hp [Hs Hd].
  destruct (shunting_step_defined precedence token operators output Hp)
    as (operators' & output' & Hstep).
  exists operators', output'. split; [exact Hstep |].
  split; [exact (proj1 (shunting_step_stacked _ _ _ _ _ _ Hstep Hs)) |].
  destruct (shunting_step_shape _ _ _ _ _ _ Hstep)
    as (popped & dropped & below & -> & -> & _ & -> & Hpop).
  apply (popped_not_lparen _ _ _ Hprec), not_lparen_count in Hpop.
  rewrite !count_occ_app in *.
  assert (type token <> T_RPAREN /\ token <> LPAREN) as [Hr Hl]
    by (destruct token; split; try discriminate; discriminate Hp).
  destruct (TokenType.eqb_spec (type token) T_RPAREN); [contradiction |].
  destruct (is_stacked token); cbn in *.
  - destruct (Token_eq_dec token LPAREN); [contradiction | lia].
  - lia.
Qed.

Lemma shunting_loop_balance (precedence : Token -> nat) :
  paren_below_operators precedence ->
  forall (tokens operators output : list Token) (depth : nat),
    stack_at_depth operators depth ->
    match paren_scan tokens depth with
    | Some depth' =>
        exists operators' output',
          shunting_loop precedence tokens operators output
          = Ret (operators', output') /\
          stack_at_depth operators' depth'
    | None =>
        shunting_loop precedence tokens operators output = Undefined \/
        shunting_loop precedence tokens operators output
        = Throw MismatchedOrComma
    end.
Proof.
  intros Hprec.
  induction tokens as [| token tokens IH]; intros operators output depth Hinv.
  - cbn. eauto.
  - assert (Hother : is_punctuation token = false ->
              match paren_scan tokens depth with
              | Some depth' =>
                  exists operators' output',
                    shunting_loop precedence (token :: tokens) operators output
                    = Ret (operators', output') /\
                    stack_at_depth operators' depth'
              | None =>
                  shunting_loop precedence (token :: tokens) operators output
                  = Undefined \/
                  shunting_loop precedence (token :: tokens) operators output
                  = Throw MismatchedOrComma
              end).
    { intros Hp.
      destruct (shunting_step_same_depth precedence token operators output
                  depth Hprec Hp Hinv) as (ops1 & out1 & Hstep & Hinv1).
      cbn [shunting_loop]. rewrite Hstep. cbn [bind].
      exact (IH ops1 out1 depth Hinv1). }
    destruct token; try exact (Hother eq_refl); clear Hother;
      cbn [paren_scan type shunting_loop]; unfold shunting_step;
      cbn [is_number is_variable is_ident is_operator is_binary_op
           is_boolean_op type TokenType.eqb orb].
    + (* LPAREN *)
      cbn [bind]. apply IH. destruct Hinv as [Hs Hd]. split.
      * now constructor.
      * cbn. destruct (Token_eq_dec LPAREN LPAREN); [lia | contradiction].
    + (* RPAREN *)
      destruct Hinv as [Hs Hd]. destruct depth as [| depth'].
      * left. apply not_lparen_count in Hd.
        now rewrite (rparen_step_unmatched operators output Hd).
      * destruct (rparen_step_cases operators output)
          as [(above & below & -> & Ha & ->) | [Hall _]].
        -- cbn [bind]. apply IH. split.
           ++ now apply Forall_app_r in Hs; inversion Hs.
           ++ apply not_lparen_count in Ha.
              rewrite count_occ_app in Hd. cbn in Hd.
              destruct (Token_eq_dec LPAREN LPAREN); [lia | contradiction].
        -- apply not_lparen_count in Hall. lia.
    + (* COMMA *)
      destruct Hinv as [Hs Hd].
      destruct (comma_loop_cases operators output)
        as [[-> ->] | [(_ & Hall & ->) | (above & below & -> & Ha & ->)]].
      * cbn in Hd. subst depth. now left.
      * apply not_lparen_count in Hall. rewrite Hall in Hd. subst depth.
        now right.
      * apply not_lparen_count in Ha.
        rewrite count_occ_app, Ha in Hd. cbn [plus] in Hd.
        destruct depth as [| depth'];
          [cbn in Hd; destruct (Token_eq_dec LPAREN LPAREN);
           [discriminate | contradiction] |].
        cbn [bind]. apply IH. split.
        -- now apply Forall_app_r in Hs.
        -- exact Hd.
Qed.

(** When the precedence of the open parenthesis is below that of every
    operator, the outcome of the reducer is decided by the parentheses and
    commas of its input alone.  It returns when the parentheses are
    balanced and every comma is inside parentheses; it throws "Mismatched
    parentheses" when open parentheses are left unclosed; and when a close
    parenthesis or a comma is met outside parentheses it is undefined or
    throws "Mismatched paretheses or additional comma found". *)
Theorem shunting_yard_outcome :
  forall (precedence : Token -> nat) (tokens : list Token),
    paren_below_operators precedence ->
    (paren_scan tokens 0 = Some 0 ->
     exists rpn, shunting_yard precedence tokens = Ret rpn) /\
    (forall depth, paren_scan tokens 0 = Some (S depth) ->
     shunting_yard precedence tokens = Throw MismatchedParentheses) /\
    (paren_scan tokens 0 = None ->
     shunting_yard precedence tokens = Undefined \/
     shunting_yard precedence tokens = Throw MismatchedOrComma).
Proof.
  intros precedence tokens Hprec.
  pose proof (shunting_loop_balance precedence Hprec tokens [] [] 0
                (conj (Forall_nil _) eq_refl)) as H.
  unfold shunting_yard.
  destruct (paren_scan tokens 0) as [depth |].
  - destruct H as (operators & output & -> & Hs & Hd). cbn [bind].
    repeat split; try discriminate.
    + intros [= ->].
      destruct (drain_cases operators output) as [[_ ->] | [Hex _]];
        [cbn; eauto |].
      apply not_lparen_count in Hd.
      apply Exists_exists in Hex. destruct Hex as (t & Hin & [El | Er]).
      * rewrite Forall_forall in Hd. now elim (Hd t Hin).
      * rewrite Forall_forall in Hs. now elim (stacked_not_rparen t (Hs t Hin)).
    + intros depth' [= ->].
      destruct (drain_cases operators output) as [[Hall _] | [_ ->]];
        [| reflexivity].
      assert (Hn : Forall not_lparen operators)
        by (eapply Forall_impl; [| exact Hall]; intros t [N _]; exact N).
      apply not_lparen_count in Hn. lia.
  - repeat split; try discriminate.
    intros _. destruct H as [-> | ->]; auto.
Qed.

Lemma shunting_yard_outcome_witness :
  (paren_scan [LPAREN; IDENT "all"; RPAREN] 0 = Some 0 ->
   exists rpn,
     shunting_yard spec_precedence [LPAREN; IDENT "all"; RPAREN] = Ret rpn) /\
  (forall depth,
      paren_scan [LPAREN; IDENT "all"; RPAREN] 0 = Some (S depth) ->
      shunting_yard spec_precedence [LPAREN; IDENT "all"; RPAREN]
      = Throw MismatchedParentheses) /\
  (paren_scan [LPAREN; IDENT "all"; RPAREN] 0 = None ->
   shunting_yard spec_precedence [LPAREN; IDENT "all"; RPAREN] = Undefined \/
   shunting_yard spec_precedence [LPAREN; IDENT "all"; RPAREN]
   = Throw MismatchedOrComma).
Proof.
  apply (shunting_yard_outcome spec_precedence [LPAREN; IDENT "all"; RPAREN]).
  intros op Hop. destruct op; try discriminate Hop; simpl; lia.
Defined.

(** A token sequence without parentheses and commas is reduced whatever
    the precedence table: the run returns, and its result is a
    rearrangement of the input. *)
Theorem shunting_yard_without_punctuation :
  forall (precedence : Token -> nat) (tokens : list Token),
    Forall (fun t => is_punctuation t = false) tokens ->
    exists rpn,
      shunting_yard precedence tokens = Ret rpn /\ Permutation rpn tokens.
Proof.
  intros precedence tokens Htokens.
  assert (Hloop : forall operators output,
            Forall (fun t => is_punctuation t = false) operators ->
            Forall (fun t => is_punctuation t = false) output ->
            exists operators' output',
              shunting_loop precedence tokens operators output
              = Ret (operators', output') /\
              Forall (fun t => is_punctuation t = false) operators' /\
              Forall (fun t => is_punctuation t = false) output').
  { induction Htokens as [| token tokens Ht _ IH]; intros operators output Ho Hu.
    - exists operators, output. auto.
    - destruct (shunting_step_defined precedence token operators output Ht)
        as (ops1 & out1 & Hstep).
      cbn [shunting_loop]. rewrite Hstep. cbn [bind].
      destruct (shunting_step_shape _ _ _ _ _ _ Hstep)
        as (popped & dropped & below & -> & -> & -> & _ & _).
      apply IH.
      + apply Forall_app. split.
        * destruct (is_stacked token); repeat constructor. exact Ht.
        * now apply Forall_app_r, Forall_app_r in Ho.
      + apply Forall_app. split; [exact Hu |].
        apply Forall_app. split.
        * now apply Forall_app_l in Ho.
        * destruct (is_operand token); repeat constructor. exact Ht. }
  destruct (Hloop [] [] (Forall_nil _) (Forall_nil _))
    as (operators & output & Hrun & Ho & Hu).
  assert (Hdrain : drain operators output = Ret (output ++ operators)).
  { destruct (drain_cases operators output) as [[_ E] | [Hex _]]; [exact E |].
    apply Exists_exists in Hex. destruct Hex as (t & Hin & Ht).
    rewrite Forall_forall in Ho. specialize (Ho t Hin).
    unfold is_punctuation in Ho.
    destruct Ht as [E | E]; rewrite E in Ho; discriminate Ho. }
  assert (Hall : forall l, Forall (fun t => is_punctuation t = false) l ->
                           significant l = l).
  { intros l Hl. unfold significant. apply forallb_filter_id, forallb_forall.
    intros t Hin. rewrite Forall_forall in Hl. now rewrite (Hl t Hin). }
  assert (Hret : shunting_yard precedence tokens = Ret (rev (output ++ operators)))
    by (unfold shunting_yard; rewrite Hrun; cbn [bind]; now rewrite Hdrain).
  exists (rev (output ++ operators)). split; [exact Hret |].
  rewrite <- (Hall tokens Htokens).
  rewrite <- (Hall (rev (output ++ operators))).
  - apply (Permutation_count_occ Token_eq_dec).
    exact (shunting_yard_counts _ _ _ Hret).
  - apply Forall_rev, Forall_app. now split.
Qed.

Lemma shunting_yard_without_punctuation_witness :
  exists rpn,
    shunting_yard (fun _ => 0) [NOT; IDENT "x"; LT; NUMBER 3; OR; IDENT "all"]
    = Ret rpn /\
    Permutation rpn [NOT; IDENT "x"; LT; NUMBER 3; OR; IDENT "all"].
Proof.
  apply shunting_yard_without_punctuation.
  repeat constructor.
Defined.

(** ** From a tree to its tokens and back *)

Lemma op_token_binary (op : CmpOp) :
  is_binary_op (op_token op) = true /\ cmp_op (op_token op) = Some op.
Proof. destruct op; split; reflexivity. Qed.

Lemma dispatch_parsing_prefix_form (ast : Ast) :
  name_ops_ok ast ->
  forall rest,
    dispatch_parsing (prefix_form ast ++ rest) = Ret (ast, rest).
Proof.
  induction ast as [| | op value | op value | op value | axis op value
                    | axis op value | lhs IHl rhs IHr | lhs IHl rhs IHr
                    | operand IH];
    intros Hok rest; cbn [prefix_form app].
  - reflexivity.
  - reflexivity.
  - destruct Hok as [-> | ->]; reflexivity.
  - destruct op; reflexivity.
  - destruct op; reflexivity.
  - destruct axis, op; reflexivity.
  - destruct axis, op; reflexivity.
  - destruct Hok as [Hl Hr].
    rewrite dispatch_parsing_and, <- app_assoc, (IHr Hr). cbn [bind].
    now rewrite (IHl Hl).
  - destruct Hok as [Hl Hr].
    rewrite dispatch_parsing_or, <- app_assoc, (IHr Hr). cbn [bind].
    now rewrite (IHl Hl).
  - rewrite dispatch_parsing_not, (IH Hok). reflexivity.
Qed.

(** The dispatcher rebuilds every tree from its prefix form and leaves
    the tokens after it untouched, provided the name comparisons of the
    tree use [==] or [!=]. *)
Theorem dispatch_parsing_round_trip :
  forall (ast : Ast) (rest : list Token),
    name_ops_ok ast ->
    dispatch_parsing (prefix_form ast ++ rest) = Ret (ast, rest).
Proof.
  intros ast rest Hok. now apply dispatch_parsing_prefix_form.
Qed.

Lemma dispatch_parsing_round_trip_witness :
  dispatch_parsing
    (prefix_form (OrExpr (NotExpr (NameExpr OpNeq "O"))
                         (AndExpr (PositionExpr AxisY OpLe 4) AllExpr))
     ++ [IDENT "none"])
  = Ret (OrExpr (NotExpr (NameExpr OpNeq "O"))
                (AndExpr (PositionExpr AxisY OpLe 4) AllExpr),
         [IDENT "none"]).
Proof.
  apply dispatch_parsing_round_trip.
  cbn. auto.
Defined.

(** ** The reducer on the selection of a tree *)

Lemma emitted_pending (ast : Ast) :
  emitted ast ++ pending ast = rev (prefix_form ast).
Proof. destruct ast; cbn [emitted pending]; rewrite ?app_nil_r; reflexivity. Qed.

Lemma operator_loop_pops (precedence : Token -> nat) (token : Token)
    (popped kept : list Token) :
  Forall (fun t => precedence token <= precedence t) popped ->
  match kept with
  | [] => True
  | top :: _ => precedence top < precedence token
  end ->
  forall output,
    operator_loop precedence token (popped ++ kept) output
    = (kept, output ++ popped).
Proof.
  intros Hp Hk. induction Hp as [| t popped Ht _ IH]; intros output.
  - cbn [app]. rewrite app_nil_r.
    destruct kept as [| top kept']; [reflexivity |].
    cbn [operator_loop].
    now destruct (Nat.leb_spec (precedence token) (precedence top)); [lia |].
  - cbn [app operator_loop].
    destruct (Nat.leb_spec (precedence token) (precedence t)); [| lia].
    now rewrite IH, push_back_app.
Qed.

Lemma rparen_step_matched (above below output : list Token) :
  Forall not_lparen above ->
  rparen_step (above ++ LPAREN :: below) output = Ret (below, output ++ above).
Proof.
  intros Ha. unfold rparen_step.
  now rewrite (rparen_loop_app _ _ _ Ha), rparen_loop_stops.
Qed.

Lemma shunting_step_operand (precedence : Token -> nat) (token : Token)
    (operators output : list Token) :
  is_operand token = true ->
  shunting_step precedence token operators output
  = Ret (operators, output ++ [token]).
Proof.
  intros H. unfold shunting_step, is_operand in *.
  destruct token; try discriminate H; try reflexivity.
  cbn [is_number is_variable is_ident orb andb] in *.
  now destruct (is_function (IDENT ident0)).
Qed.

Lemma shunting_step_function (precedence : Token -> nat) (name : string)
    (operators output : list Token) :
  is_function (IDENT name) = true ->
  shunting_step precedence (IDENT name) operators output
  = Ret (IDENT name :: operators, output).
Proof.
  intros H. unfold shunting_step.
  cbn [is_number is_variable is_ident orb]. now rewrite H.
Qed.

Lemma shunting_step_operator (precedence : Token -> nat) (token : Token)
    (popped kept output : list Token) :
  is_operator token = true ->
  Forall (fun t => precedence token <= precedence t) popped ->
  match kept with
  | [] => True
  | top :: _ => precedence top < precedence token
  end ->
  shunting_step precedence token (popped ++ kept) output
  = Ret (token :: kept, output ++ popped).
Proof.
  intros Hop Hp Hk. unfold shunting_step.
  destruct token; try discriminate Hop;
    cbn [is_number is_variable is_ident is_operator is_binary_op is_boolean_op
         type TokenType.eqb orb];
    now rewrite (operator_loop_pops _ _ _ _ Hp Hk).
Qed.

Lemma binary_is_operator (c : Token) :
  is_binary_op c = true -> is_operator c = true.
Proof. unfold is_operator. now intros ->. Qed.

Lemma boolean_is_operator (b : Token) :
  is_boolean_op b = true -> is_operator b = true.
Proof. unfold is_operator. intros ->. apply orb_true_r. Qed.

(** A comparison [<property> <op> <value>] read on a quiet stack. *)
Lemma shunting_loop_comparison (precedence : Token -> nat)
    (property : string) (op : CmpOp) (value : Token)
    (more operators output : list Token) :
  infix_precedence precedence ->
  is_function (IDENT property) = true ->
  is_operand value = true ->
  quiet precedence operators ->
  shunting_loop precedence (IDENT property :: op_token op :: value :: more)
    operators output
  = shunting_loop precedence more (op_token op :: operators)
      (output ++ [IDENT property; value]).
Proof.
  intros Hprec Hf Hv Hq.
  destruct (op_token_binary op) as [Hbin _].
  cbn [shunting_loop].
  rewrite (shunting_step_function _ _ _ _ Hf). cbn [bind].
  change (IDENT property :: operators) with ([IDENT property] ++ operators).
  rewrite (shunting_step_operator precedence (op_token op)
             [IDENT property] operators output (binary_is_operator _ Hbin)).
  - cbn [bind]. rewrite (shunting_step_operand _ _ _ _ Hv). cbn [bind].
    now rewrite <- app_assoc.
  - repeat constructor. now apply (ident_high Hprec).
  - destruct operators as [| top operators']; [exact I |].
    now apply Hq.
Qed.

Lemma pending_above (precedence : Token -> nat) (ast : Ast) (b : Token) :
  infix_precedence precedence ->
  is_boolean_op b = true ->
  Forall (fun t => precedence b <= precedence t) (pending ast) /\
  Forall not_lparen (pending ast ++ [b]).
Proof.
  intros Hprec Hb.
  assert (Hc : forall op,
            Forall (fun t => precedence b <= precedence t) [op_token op] /\
            Forall not_lparen ([op_token op] ++ [b])).
  { intros op. destruct (op_token_binary op) as [Hbin _]. split.
    - repeat constructor.
      apply Nat.lt_le_incl. now apply (boolean_low Hprec).
    - repeat constructor; unfold not_lparen.
      + destruct op; discriminate.
      + destruct b; discriminate. }
  assert (Hn : Forall (fun t => precedence b <= precedence t) [] /\
               Forall not_lparen ([] ++ [b])).
  { split; repeat constructor. unfold not_lparen. destruct b; discriminate. }
  destruct ast; cbn [pending]; auto.
Qed.

Lemma quiet_under_paren (precedence : Token -> nat) (operators : list Token) :
  infix_precedence precedence -> quiet precedence (LPAREN :: operators).
Proof.
  intros Hprec c Hc. apply (paren_low Hprec). now apply binary_is_operator.
Qed.

Lemma quiet_under_boolean (precedence : Token -> nat) (b : Token)
    (operators : list Token) :
  infix_precedence precedence -> is_boolean_op b = true ->
  quiet precedence (b :: operators).
Proof. intros Hprec Hb c Hc. now apply (boolean_low Hprec). Qed.

(** A combinator [( lhs b rhs )], given what its operands do. *)
Lemma shunting_loop_binary (precedence : Token -> nat) (b : Token)
    (lhs rhs : Ast) (more operators output : list Token) :
  infix_precedence precedence ->
  is_boolean_op b = true ->
  (forall more operators output,
      quiet precedence operators ->
      shunting_loop precedence (infix_form lhs ++ more) operators output
      = shunting_loop precedence more (pending lhs ++ operators)
          (output ++ emitted lhs)) ->
  (forall more operators output,
      quiet precedence operators ->
      shunting_loop precedence (infix_form rhs ++ more) operators output
      = shunting_loop precedence more (pending rhs ++ operators)
          (output ++ emitted rhs)) ->
  shunting_loop precedence
    (LPAREN :: infix_form lhs ++ b :: infix_form rhs ++ RPAREN :: more)
    operators output
  = shunting_loop precedence more operators
      (output ++ rev (prefix_form lhs) ++ rev (prefix_form rhs) ++ [b]).
Proof.
  intros Hprec Hb Hl Hr.
  cbn [shunting_loop].
  replace (shunting_step precedence LPAREN operators output)
    with (Ret (LPAREN :: operators, output)) by reflexivity.
  cbn [bind].
  rewrite (Hl _ _ _ (quiet_under_paren _ operators Hprec)).
  cbn [shunting_loop].
  destruct (pending_above precedence lhs b Hprec Hb) as [Hpl _].
  rewrite (shunting_step_operator precedence b (pending lhs)
             (LPAREN :: operators) _ (boolean_is_operator _ Hb) Hpl
             (paren_low Hprec b (boolean_is_operator _ Hb))).
  cbn [bind].
  rewrite (Hr _ _ _ (quiet_under_boolean _ b (LPAREN :: operators) Hprec Hb)).
  cbn [shunting_loop].
  replace (shunting_step precedence RPAREN (pending rhs ++ b :: LPAREN :: operators)
             (((output ++ emitted lhs) ++ pending lhs) ++ emitted rhs))
    with (rparen_step ((pending rhs ++ [b]) ++ LPAREN :: operators)
            (((output ++ emitted lhs) ++ pending lhs) ++ emitted rhs))
    by (rewrite <- app_assoc; reflexivity).
  destruct (pending_above precedence rhs b Hprec Hb) as [_ Hpr].
  rewrite (rparen_step_matched _ _ _ Hpr). cbn [bind].
  f_equal.
  rewrite <- !emitted_pending, <- !app_assoc. reflexivity.
Qed.

Lemma shunting_loop_infix_form (precedence : Token -> nat) (ast : Ast) :
  infix_precedence precedence ->
  plain_names ast ->
  forall more operators output,
    quiet precedence operators ->
    shunting_loop precedence (infix_form ast ++ more) operators output
    = shunting_loop precedence more (pending ast ++ operators)
        (output ++ emitted ast).
Proof.
  intros Hprec.
  induction ast as [| | op value | op value | op value | axis op value
                    | axis op value | lhs IHl rhs IHr | lhs IHl rhs IHr
                    | operand IH];
    intros Hplain more operators output Hq;
    cbn [infix_form app pending emitted].
  - reflexivity.
  - reflexivity.
  - apply shunting_loop_comparison; auto.
    unfold is_operand. cbn [is_number is_variable is_ident orb andb].
    cbn [plain_names] in Hplain. now rewrite Hplain.
  - apply shunting_loop_comparison; auto.
  - apply shunting_loop_comparison; auto.
  - apply shunting_loop_comparison; auto. now destruct axis.
  - apply shunting_loop_comparison; auto. now destruct axis.
  - destruct Hplain as [Pl Pr].
    repeat (rewrite <- app_assoc; cbn [app]).
    rewrite (shunting_loop_binary precedence AND lhs rhs more operators output
               Hprec eq_refl (IHl Pl) (IHr Pr)).
    cbn [prefix_form rev]. now rewrite rev_app_distr, <- !app_assoc.
  - destruct Hplain as [Pl Pr].
    repeat (rewrite <- app_assoc; cbn [app]).
    rewrite (shunting_loop_binary precedence OR lhs rhs more operators output
               Hprec eq_refl (IHl Pl) (IHr Pr)).
    cbn [prefix_form rev]. now rewrite rev_app_distr, <- !app_assoc.
  - cbn [plain_names] in Hplain.
    repeat (rewrite <- app_assoc; cbn [app]).
    cbn [shunting_loop].
    replace (shunting_step precedence LPAREN operators output)
      with (Ret (LPAREN :: operators, output)) by reflexivity.
    cbn [bind].
    change (LPAREN :: operators) with ([] ++ LPAREN :: operators) at 1.
    rewrite (shunting_step_operator precedence NOT [] (LPAREN :: operators)
               output eq_refl (Forall_nil _) (paren_low Hprec NOT eq_refl)).
    cbn [bind].
    rewrite (IH Hplain _ _ _
               (quiet_under_boolean _ NOT (LPAREN :: operators) Hprec eq_refl)).
    cbn [shunting_loop].
    destruct (pending_above precedence operand NOT Hprec eq_refl) as [_ Hp].
    replace (shunting_step precedence RPAREN
               (pending operand ++ NOT :: LPAREN :: operators)
               ((output ++ []) ++ emitted operand))
      with (rparen_step ((pending operand ++ [NOT]) ++ LPAREN :: operators)
              ((output ++ []) ++ emitted operand))
      by (rewrite <- app_assoc; reflexivity).
    rewrite (rparen_step_matched _ _ _ Hp). cbn [bind].
    f_equal. cbn [prefix_form rev].
    rewrite <- emitted_pending, app_nil_r, <- !app_assoc. reflexivity.
Qed.

Lemma drain_pending (ast : Ast) (output : list Token) :
  drain (pending ast) output = Ret (output ++ pending ast).
Proof.
  destruct ast; cbn [pending drain]; rewrite ?app_nil_r; try reflexivity;
    destruct op; reflexivity.
Qed.

Lemma shunting_yard_of_infix_form (precedence : Token -> nat) (ast : Ast) :
  infix_precedence precedence ->
  plain_names ast ->
  shunting_yard precedence (infix_form ast) = Ret (prefix_form ast).
Proof.
  intros Hprec Hplain. unfold shunting_yard.
  rewrite <- (app_nil_r (infix_form ast)).
  rewrite (shunting_loop_infix_form precedence ast Hprec Hplain [] [] [] I).
  cbn [shunting_loop bind app]. rewrite app_nil_r, drain_pending.
  cbn [bind]. now rewrite emitted_pending, rev_involutive.
Qed.

(** Under precedences that put the open parenthesis below the operators,
    the boolean operators below the comparisons and no comparison above an
    identifier, the reducer turns the selection of a tree, written with its
    combinators between parentheses, into the prefix form of the tree. *)
Theorem shunting_yard_infix_to_prefix :
  forall (precedence : Token -> nat) (ast : Ast),
    infix_precedence precedence ->
    plain_names ast ->
    shunting_yard precedence (infix_form ast) = Ret (prefix_form ast).
Proof.
  intros precedence ast Hprec Hplain.
  now apply shunting_yard_of_infix_form.
Qed.

Lemma spec_precedence_infix : infix_precedence spec_precedence.
Proof.
  constructor.
  - intros op Hop. destruct op; try discriminate Hop; simpl; lia.
  - intros b c Hb Hc.
    destruct b; try discriminate Hb; destruct c; try discriminate Hc;
      simpl; lia.
  - intros c s Hc. destruct c; try discriminate Hc; simpl; lia.
Qed.

Lemma shunting_yard_infix_to_prefix_witness :
  shunting_yard spec_precedence
    (infix_form (AndExpr (NotExpr (NameExpr OpEq "O")) (MassExpr OpGt 12)))
  = Ret (prefix_form (AndExpr (NotExpr (NameExpr OpEq "O")) (MassExpr OpGt 12))).
Proof.
  apply shunting_yard_infix_to_prefix.
  - exact spec_precedence_infix.
  - cbn. auto.
Defined.

(** ** The whole parser on the selection of a tree *)

Lemma short_form_is_function (expr : string) :
  have_short_form expr = true -> is_function (IDENT expr) = true.
Proof.
  unfold have_short_form.
  destruct (String.eqb_spec expr "name") as [E | _]; [now rewrite E |].
  destruct (String.eqb_spec expr "index") as [E | _]; [now rewrite E |].
  destruct (String.eqb_spec expr "mass") as [E | _]; [now rewrite E |].
  discriminate.
Qed.

Lemma clean_token_stream_plain (t : Token) (rest : list Token) :
  is_ident t && have_short_form (ident t) = false ->
  clean_token_stream (t :: rest) = t :: clean_token_stream rest.
Proof.
  intros H. cbn [clean_token_stream]. rewrite H. reflexivity.
Qed.

Lemma clean_token_stream_comparison (property : string) (op : CmpOp)
    (value : Token) (rest : list Token) :
  is_ident value && have_short_form (ident value) = false ->
  clean_token_stream (IDENT property :: op_token op :: value :: rest)
  = IDENT property :: op_token op :: value :: clean_token_stream rest.
Proof.
  intros Hv.
  rewrite clean_token_stream_cons2, rewrites_at_operator_next
    by (destruct op; reflexivity).
  rewrite (clean_token_stream_plain (op_token op)) by (destruct op; reflexivity).
  now rewrite (clean_token_stream_plain value rest Hv).
Qed.

Lemma clean_token_stream_infix_form (ast : Ast) :
  plain_names ast ->
  forall rest,
    clean_token_stream (infix_form ast ++ rest)
    = infix_form ast ++ clean_token_stream rest.
Proof.
  induction ast as [| | op value | op value | op value | axis op value
                    | axis op value | lhs IHl rhs IHr | lhs IHl rhs IHr
                    | operand IH];
    intros Hplain rest; cbn [infix_form app].
  - now apply clean_token_stream_plain.
  - now apply clean_token_stream_plain.
  - apply clean_token_stream_comparison.
    cbn [is_ident ident andb plain_names] in *.
    destruct (have_short_form value) eqn:E; [| reflexivity].
    now rewrite (short_form_is_function value E) in Hplain.
  - now apply clean_token_stream_comparison.
  - now apply clean_token_stream_comparison.
  - now apply clean_token_stream_comparison.
  - now apply clean_token_stream_comparison.
  - destruct Hplain as [Pl Pr].
    repeat (rewrite <- app_assoc; cbn [app]).
    rewrite (clean_token_stream_plain LPAREN) by reflexivity.
    rewrite (IHl Pl), (clean_token_stream_plain AND) by reflexivity.
    rewrite (IHr Pr), (clean_token_stream_plain RPAREN) by reflexivity.
    reflexivity.
  - destruct Hplain as [Pl Pr].
    repeat (rewrite <- app_assoc; cbn [app]).
    rewrite (clean_token_stream_plain LPAREN) by reflexivity.
    rewrite (IHl Pl), (clean_token_stream_plain OR) by reflexivity.
    rewrite (IHr Pr), (clean_token_stream_plain RPAREN) by reflexivity.
    reflexivity.
  - cbn [plain_names] in Hplain.
    repeat (rewrite <- app_assoc; cbn [app]).
    rewrite (clean_token_stream_plain LPAREN) by reflexivity.
    rewrite (clean_token_stream_plain NOT) by reflexivity.
    rewrite (IH Hplain), (clean_token_stream_plain RPAREN) by reflexivity.
    reflexivity.
Qed.

(** Every tree is the result of parsing its own selection: under the
    precedences above, [parse] applied to the selection of a tree, written
    with its combinators between parentheses, returns that tree, provided
    its name comparisons use [==] or [!=] and compare with names that are
    not spelled like a function. *)
Theorem parse_infix_form :
  forall (precedence : Token -> nat) (ast : Ast),
    infix_precedence precedence ->
    name_ops_ok ast ->
    plain_names ast ->
    parse precedence (infix_form ast) = Ret ast.
Proof.
  intros precedence ast Hprec Hok Hplain. unfold parse.
  rewrite <- (app_nil_r (infix_form ast)) at 1.
  rewrite (clean_token_stream_infix_form ast Hplain []).
  cbn [clean_token_stream]. rewrite app_nil_r.
  rewrite (shunting_yard_of_infix_form precedence ast Hprec Hplain).
  cbn [bind].
  rewrite <- (app_nil_r (prefix_form ast)).
  now rewrite (dispatch_parsing_prefix_form ast Hok []).
Qed.

Lemma parse_infix_form_witness :
  parse spec_precedence
    (infix_form (OrExpr (AndExpr (NameExpr OpEq "O") (VelocityExpr AxisZ OpGe 2))
                        (NotExpr NoneExpr)))
  = Ret (OrExpr (AndExpr (NameExpr OpEq "O") (VelocityExpr AxisZ OpGe 2))
                (NotExpr NoneExpr)).
Proof.
  apply parse_infix_form.
  - exact spec_precedence_infix.
  - cbn. auto.
  - cbn. auto.
Defined.

(** ** Precedence and associativity between any operands *)

Lemma connective_boolean (b : Token) :
  is_connective b -> is_boolean_op b = true.
Proof. intros [-> | ->]; reflexivity. Qed.

Lemma prefix_form_combine (b : Token) (lhs rhs : Ast) :
  is_connective b ->
  prefix_form (combine b lhs rhs) = b :: prefix_form rhs ++ prefix_form lhs.
Proof. intros [-> | ->]; reflexivity. Qed.

Lemma pending_operators (ast : Ast) :
  Forall (fun t => is_operator t = true) (pending ast).
Proof. destruct ast; cbn [pending]; repeat constructor; now destruct op. Qed.

Lemma drain_operators (operators : list Token) :
  Forall (fun t => is_operator t = true) operators ->
  forall output, drain operators output = Ret (output ++ operators).
Proof.
  induction 1 as [| t operators Ht _ IH]; intros output.
  - cbn. now rewrite app_nil_r.
  - cbn [drain].
    replace (TokenType.eqb (type t) T_LPAREN || TokenType.eqb (type t) T_RPAREN)
      with false by (destruct t; try discriminate Ht; reflexivity).
    now rewrite IH, push_back_app.
Qed.

Lemma parse_of_prefix_form (precedence : Token -> nat) (tokens : list Token)
    (ast : Ast) :
  clean_token_stream tokens = tokens ->
  shunting_yard precedence tokens = Ret (prefix_form ast) ->
  name_ops_ok ast ->
  parse precedence tokens = Ret ast.
Proof.
  intros Hclean Hred Hok. unfold parse. rewrite Hclean, Hred. cbn [bind].
  rewrite <- (app_nil_r (prefix_form ast)).
  now rewrite (dispatch_parsing_prefix_form ast Hok []).
Qed.

Lemma output_is_prefix_form (output : list Token) (ast : Ast) :
  output = rev (prefix_form ast) ->
  Ret (rev output) = Ret (prefix_form ast).
Proof. intros ->. now rewrite rev_involutive. Qed.

(** Both sides are the same tokens once the reversed prefix forms are
    split into what the operands emit and what they leave pending. *)
Ltac same_output :=
  repeat (progress (cbn [rev app]; rewrite ?rev_app_distr));
  rewrite <- ?emitted_pending;
  repeat (rewrite <- app_assoc; cbn [app]);
  cbn [app];
  reflexivity.

Lemma shunting_yard_two_operators (precedence : Token -> nat)
    (a b c : Ast) (b1 b2 : Token) :
  infix_precedence precedence ->
  is_connective b1 -> is_connective b2 ->
  plain_names a -> plain_names b -> plain_names c ->
  shunting_yard precedence
    (infix_form a ++ b1 :: infix_form b ++ b2 :: infix_form c)
  = Ret (prefix_form
           (if precedence b2 <=? precedence b1
            then combine b2 (combine b1 a b) c
            else combine b1 a (combine b2 b c))).
Proof.
  intros Hprec H1 H2 Pa Pb Pc.
  pose proof (connective_boolean b1 H1) as B1.
  pose proof (connective_boolean b2 H2) as B2.
  unfold shunting_yard.
  rewrite (shunting_loop_infix_form precedence a Hprec Pa _ [] [] I).
  cbn [shunting_loop].
  rewrite <- (app_nil_r (pending a ++ [])), app_nil_r at 1.
  replace (shunting_step precedence b1 (pending a ++ []) ([] ++ emitted a))
    with (Ret (b1 :: @nil Token, ([] ++ emitted a) ++ pending a))
    by (symmetry; apply shunting_step_operator;
        [now apply boolean_is_operator
        | exact (proj1 (pending_above precedence a b1 Hprec B1)) | exact I]).
  cbn [bind].
  rewrite (shunting_loop_infix_form precedence b Hprec Pb _ _ _
             (quiet_under_boolean precedence b1 [] Hprec B1)).
  cbn [shunting_loop].
  destruct (Nat.leb_spec (precedence b2) (precedence b1)) as [Hle | Hlt].
  - replace (shunting_step precedence b2 (pending b ++ [b1])
               ((([] ++ emitted a) ++ pending a) ++ emitted b))
      with (Ret (b2 :: @nil Token,
                 ((([] ++ emitted a) ++ pending a) ++ emitted b)
                 ++ pending b ++ [b1])).
    2:{ symmetry. rewrite <- (app_nil_r (pending b ++ [b1])) at 1.
        apply shunting_step_operator;
          [now apply boolean_is_operator | | exact I].
        apply Forall_app. split.
        - exact (proj1 (pending_above precedence b b2 Hprec B2)).
        - repeat constructor. exact Hle. }
    cbn [bind].
    rewrite <- (app_nil_r (infix_form c)).
    rewrite (shunting_loop_infix_form precedence c Hprec Pc _ _ _
               (quiet_under_boolean precedence b2 [] Hprec B2)).
    cbn [shunting_loop bind].
    rewrite drain_operators
      by (apply Forall_app; split;
          [apply pending_operators
          | repeat constructor; now apply boolean_is_operator]).
    cbn [bind]. apply output_is_prefix_form.
    repeat first [ rewrite (prefix_form_combine _ _ _ H1)
                 | rewrite (prefix_form_combine _ _ _ H2) ].
    same_output.
  - replace (shunting_step precedence b2 (pending b ++ [b1])
               ((([] ++ emitted a) ++ pending a) ++ emitted b))
      with (Ret (b2 :: [b1],
                 ((([] ++ emitted a) ++ pending a) ++ emitted b)
                 ++ pending b)).
    2:{ symmetry. apply shunting_step_operator;
          [now apply boolean_is_operator | | exact Hlt].
        exact (proj1 (pending_above precedence b b2 Hprec B2)). }
    cbn [bind].
    rewrite <- (app_nil_r (infix_form c)).
    rewrite (shunting_loop_infix_form precedence c Hprec Pc _ _ _
               (quiet_under_boolean precedence b2 [b1] Hprec B2)).
    cbn [shunting_loop bind].
    rewrite drain_operators
      by (apply Forall_app; split;
          [apply pending_operators
          | repeat constructor; now apply boolean_is_operator]).
    cbn [bind]. apply output_is_prefix_form.
    repeat first [ rewrite (prefix_form_combine _ _ _ H1)
                 | rewrite (prefix_form_combine _ _ _ H2) ].
    same_output.
Qed.

Lemma clean_token_stream_connective (b : Token) (rest : list Token) :
  is_boolean_op b = true ->
  clean_token_stream (b :: rest) = b :: clean_token_stream rest.
Proof.
  intros Hb. apply clean_token_stream_plain.
  now destruct b.
Qed.

(** Between any three operands joined by [and] or [or] without
    parentheses, the second operator takes the operand in the middle exactly
    when its precedence is strictly above that of the first: with
    [precedence b2 <= precedence b1] the selection [a b1 b b2 c] parses to
    [(a b1 b) b2 c], which is left associativity when both are the same
    operator, and otherwise to [a b1 (b b2 c)]. *)
Theorem parse_two_operators :
  forall (precedence : Token -> nat) (a b c : Ast) (b1 b2 : Token),
    infix_precedence precedence ->
    is_connective b1 -> is_connective b2 ->
    name_ops_ok a /\ name_ops_ok b /\ name_ops_ok c ->
    plain_names a /\ plain_names b /\ plain_names c ->
    parse precedence
      (infix_form a ++ b1 :: infix_form b ++ b2 :: infix_form c)
    = Ret (if precedence b2 <=? precedence b1
           then combine b2 (combine b1 a b) c
           else combine b1 a (combine b2 b c)).
Proof.
  intros precedence a b c b1 b2 Hprec H1 H2 (Oa & Ob & Oc) (Pa & Pb & Pc).
  apply parse_of_prefix_form.
  - rewrite (clean_token_stream_infix_form a Pa).
    rewrite (clean_token_stream_connective b1 _ (connective_boolean b1 H1)).
    rewrite (clean_token_stream_infix_form b Pb).
    rewrite (clean_token_stream_connective b2 _ (connective_boolean b2 H2)).
    rewrite <- (app_nil_r (infix_form c)) at 1.
    rewrite (clean_token_stream_infix_form c Pc). cbn [clean_token_stream].
    now rewrite app_nil_r.
  - now apply shunting_yard_two_operators.
  - destruct (precedence b2 <=? precedence b1);
      destruct H1 as [-> | ->]; destruct H2 as [-> | ->]; cbn; auto.
Qed.

Lemma parse_two_operators_witness :
  parse spec_precedence
    (infix_form (NameExpr OpEq "O") ++ OR ::
     infix_form (NotExpr AllExpr) ++ AND :: infix_form (PositionExpr AxisX OpLt 3))
  = Ret (if spec_precedence AND <=? spec_precedence OR
         then combine AND (combine OR (NameExpr OpEq "O") (NotExpr AllExpr))
                (PositionExpr AxisX OpLt 3)
         else combine OR (NameExpr OpEq "O")
                (combine AND (NotExpr AllExpr) (PositionExpr AxisX OpLt 3))).
Proof.
  apply parse_two_operators.
  - exact spec_precedence_infix.
  - now right.
  - now left.
  - cbn. auto.
  - cbn. auto.
Defined.

Lemma shunting_yard_not_operator (precedence : Token -> nat)
    (a b : Ast) (b1 : Token) :
  infix_precedence precedence ->
  is_connective b1 ->
  plain_names a -> plain_names b ->
  shunting_yard precedence (NOT :: infix_form a ++ b1 :: infix_form b)
  = Ret (prefix_form
           (if precedence b1 <=? precedence NOT
            then combine b1 (NotExpr a) b
            else NotExpr (combine b1 a b))).
Proof.
  intros Hprec H1 Pa Pb.
  pose proof (connective_boolean b1 H1) as B1.
  unfold shunting_yard. cbn [shunting_loop].
  replace (shunting_step precedence NOT [] [])
    with (Ret ([NOT], @nil Token)) by reflexivity.
  cbn [bind].
  rewrite (shunting_loop_infix_form precedence a Hprec Pa _ _ _
             (quiet_under_boolean precedence NOT [] Hprec eq_refl)).
  cbn [shunting_loop].
  destruct (Nat.leb_spec (precedence b1) (precedence NOT)) as [Hle | Hlt].
  - replace (shunting_step precedence b1 (pending a ++ [NOT]) ([] ++ emitted a))
      with (Ret (b1 :: @nil Token, ([] ++ emitted a) ++ pending a ++ [NOT])).
    2:{ symmetry. rewrite <- (app_nil_r (pending a ++ [NOT])) at 1.
        apply shunting_step_operator;
          [now apply boolean_is_operator | | exact I].
        apply Forall_app. split.
        - exact (proj1 (pending_above precedence a b1 Hprec B1)).
        - repeat constructor. exact Hle. }
    cbn [bind].
    rewrite <- (app_nil_r (infix_form b)).
    rewrite (shunting_loop_infix_form precedence b Hprec Pb _ _ _
               (quiet_under_boolean precedence b1 [] Hprec B1)).
    cbn [shunting_loop bind].
    rewrite drain_operators
      by (apply Forall_app; split;
          [apply pending_operators
          | repeat constructor; now apply boolean_is_operator]).
    cbn [bind]. apply output_is_prefix_form.
    rewrite (prefix_form_combine _ _ _ H1). cbn [prefix_form].
    same_output.
  - replace (shunting_step precedence b1 (pending a ++ [NOT]) ([] ++ emitted a))
      with (Ret (b1 :: [NOT], ([] ++ emitted a) ++ pending a)).
    2:{ symmetry. apply shunting_step_operator;
          [now apply boolean_is_operator | | exact Hlt].
        exact (proj1 (pending_above precedence a b1 Hprec B1)). }
    cbn [bind].
    rewrite <- (app_nil_r (infix_form b)).
    rewrite (shunting_loop_infix_form precedence b Hprec Pb _ _ _
               (quiet_under_boolean precedence b1 [NOT] Hprec B1)).
    cbn [shunting_loop bind].
    rewrite drain_operators
      by (apply Forall_app; split;
          [apply pending_operators
          | repeat constructor; now apply boolean_is_operator]).
    cbn [bind]. apply output_is_prefix_form.
    cbn [prefix_form]. rewrite (prefix_form_combine _ _ _ H1).
    same_output.
Qed.

(** The scope of a negation written without parentheses: in
    [not a b1 b] the negation covers [a] alone when the precedence of the
    connective [b1] does not exceed that of [not], and the whole of
    [a b1 b] otherwise. *)
Theorem parse_not_operator :
  forall (precedence : Token -> nat) (a b : Ast) (b1 : Token),
    infix_precedence precedence ->
    is_connective b1 ->
    name_ops_ok a /\ name_ops_ok b ->
    plain_names a /\ plain_names b ->
    parse precedence (NOT :: infix_form a ++ b1 :: infix_form b)
    = Ret (if precedence b1 <=? precedence NOT
           then combine b1 (NotExpr a) b
           else NotExpr (combine b1 a b)).
Proof.
  intros precedence a b b1 Hprec H1 (Oa & Ob) (Pa & Pb).
  apply parse_of_prefix_form.
  - rewrite (clean_token_stream_connective NOT _ eq_refl).
    rewrite (clean_token_stream_infix_form a Pa).
    rewrite (clean_token_stream_connective b1 _ (connective_boolean b1 H1)).
    rewrite <- (app_nil_r (infix_form b)) at 1.
    rewrite (clean_token_stream_infix_form b Pb). cbn [clean_token_stream].
    now rewrite app_nil_r.
  - now apply shunting_yard_not_operator.
  - destruct (precedence b1 <=? precedence NOT);
      destruct H1 as [-> | ->]; cbn; auto.
Qed.

Lemma parse_not_operator_witness :
  parse spec_precedence
    (NOT :: infix_form (NameExpr OpEq "foo") ++ AND ::
     infix_form (IndexExpr OpEq 1))
  = Ret (if spec_precedence AND <=? spec_precedence NOT
         then combine AND (NotExpr (NameExpr OpEq "foo")) (IndexExpr OpEq 1)
         else NotExpr (combine AND (NameExpr OpEq "foo") (IndexExpr OpEq 1))).
Proof.
  apply parse_not_operator.
  - exact spec_precedence_infix.
  - now left.
  - cbn. auto.
  - cbn. auto.
Defined.

(** ** The function table, the short forms and the dispatcher *)

(** The names that dispatch a comparison are the functions of the table:
    with a comparison operator at the cursor and an identifier in third
    position, the dispatcher throws "Unknown operation" when the identifier
    is not a function of [FUNCTIONS], and hands the range to one of the five
    constructors when it is. *)
Theorem dispatcher_knows_the_functions :
  forall (begin operand : Token) (property : string) (rest : list Token),
    is_binary_op begin = true ->
    (is_function (IDENT property) = false ->
     dispatch_parsing (begin :: operand :: IDENT property :: rest)
     = Throw (UnknownOperation property)) /\
    (is_function (IDENT property) = true ->
     In (dispatch_parsing (begin :: operand :: IDENT property :: rest))
        (map (fun constructor =>
                constructor (begin :: operand :: IDENT property :: rest))
             [parse_NameExpr; parse_IndexExpr; parse_MassExpr;
              parse_PositionExpr; parse_VelocityExpr])).
Proof.
  intros begin operand property rest Hbin.
  rewrite (dispatch_parsing_binary begin _ Hbin).
  unfold dispatch_binary, is_function, FUNCTIONS.
  cbn [length nth Nat.ltb Nat.leb type ident TokenType.eqb orb negb
       is_ident andb map_find map In].
  split; intros H; revert H; string_cases; intros H;
    try discriminate H; auto 10.
Qed.

Lemma dispatcher_knows_the_functions_witness :
  dispatch_parsing [LT; NUMBER 3; IDENT "charge"]
  = Throw (UnknownOperation "charge").
Proof.
  exact (proj1 (dispatcher_knows_the_functions
                  LT (NUMBER 3) "charge" [] eq_refl) eq_refl).
Defined.

(** An identifier that has a short form is a function of the table: the
    reducer pushes it on the operator stack, whatever the stack, the output
    and the precedence table. *)
Theorem short_forms_are_stacked :
  forall (precedence : Token -> nat) (expr : string)
         (operators output : list Token),
    have_short_form expr = true ->
    shunting_step precedence (IDENT expr) operators output
    = Ret (IDENT expr :: operators, output).
Proof.
  intros precedence expr operators output H.
  apply shunting_step_function. now apply short_form_is_function.
Qed.

Lemma short_forms_are_stacked_witness :
  shunting_step spec_precedence (IDENT "index") [AND] [IDENT "all"]
  = Ret ([IDENT "index"; AND], [IDENT "all"]).
Proof.
  apply short_forms_are_stacked. reflexivity.
Defined.

(** ** The branch "Unknown boolean operator" *)

Lemma constructors_never_unknown_boolean (begin : Token) (rpn : list Token) :
  dispatch_binary begin rpn <> Throw UnknownBooleanOperator /\
  dispatch_ident begin rpn <> Throw UnknownBooleanOperator.
Proof.
  split.
  - unfold dispatch_binary, parse_IndexExpr, parse_MassExpr,
      parse_PositionExpr, parse_VelocityExpr, parse_NameExpr, parse_numeric.
    repeat match goal with
           | |- context [if ?c then _ else _] => destruct c
           | |- context [match ?x with _ => _ end] => destruct x
           end; discriminate.
  - unfold dispatch_ident, parse_AllExpr, parse_NoneExpr.
    repeat match goal with
           | |- context [if ?c then _ else _] => destruct c
           end; discriminate.
Qed.

Lemma dispatch_fuel_never_unknown_boolean (fuel : nat) :
  forall rpn, dispatch_fuel fuel rpn <> Some (Throw UnknownBooleanOperator).
Proof.
  induction fuel as [| fuel IH]; intros rpn; [discriminate |].
  destruct rpn as [| begin rpn']; [discriminate |].
  cbn [dispatch_fuel].
  destruct (constructors_never_unknown_boolean begin (begin :: rpn'))
    as [Hb Hi].
  destruct (is_boolean_op begin) eqn:Hbool.
  - destruct begin; try discriminate Hbool; cbn [type];
      unfold parse_NotExpr, parse_AndExpr, parse_OrExpr; cbn [tl];
      repeat match goal with
             | |- context [fbind (dispatch_fuel fuel ?l) _] =>
                 let H := fresh "H" in
                 pose proof (IH l) as H;
                 destruct (dispatch_fuel fuel l) as [[[? ?] | ? |] |];
                 cbn [fbind]
             end;
      first [discriminate | assumption].
  - destruct (is_binary_op begin); [congruence |].
    destruct (is_ident begin); [congruence | discriminate].
Qed.

(** The dispatcher never throws "Unknown boolean operator. This is a
    bug.": the [default] branch of its [switch] is not reached, on any
    range. *)
Theorem dispatch_parsing_never_unknown_boolean :
  forall rpn : list Token,
    dispatch_parsing rpn <> Throw UnknownBooleanOperator.
Proof.
  intros rpn H.
  apply (dispatch_fuel_never_unknown_boolean (S (length rpn)) rpn).
  rewrite <- H. apply dispatch_parsing_total.
Qed.

(* ================================================================= *)
(** ** Two selections side by side *)

(** *** Counting *)

Lemma count_app (f : Token -> bool) (a b : list Token) :
  count f (a ++ b) = count f a + count f b.
Proof. unfold count. now rewrite filter_app, length_app. Qed.

Lemma count_rev (f : Token -> bool) (l : list Token) :
  count f (rev l) = count f l.
Proof. unfold count. now rewrite filter_rev, length_rev. Qed.

Lemma count_permutation (f : Token -> bool) (a b : list Token) :
  Permutation a b -> count f a = count f b.
Proof.
  unfold count. induction 1 as [| x a b _ IH | x y a | a b c _ IH1 _ IH2].
  - reflexivity.
  - simpl. destruct (f x); simpl; congruence.
  - simpl. destruct (f x), (f y); reflexivity.
  - congruence.
Qed.

Lemma count_significant (f : Token -> bool) (l : list Token) :
  (forall t, f t = true -> is_punctuation t = false) ->
  count f (significant l) = count f l.
Proof.
  intros Hf. unfold count, significant.
  induction l as [| t l IH]; [reflexivity |].
  simpl. destruct (f t) eqn:E.
  - rewrite (Hf t E). simpl. rewrite E. simpl. now rewrite IH.
  - destruct (is_punctuation t); simpl; rewrite ?E; exact IH.
Qed.

Lemma count_shunting_yard (precedence : Token -> nat) (f : Token -> bool)
    (tokens rpn : list Token) :
  (forall t, f t = true -> is_punctuation t = false) ->
  shunting_yard precedence tokens = Ret rpn ->
  count f rpn = count f tokens.
Proof.
  intros Hf H.
  rewrite <- (count_significant f rpn Hf), <- (count_significant f tokens Hf).
  apply count_permutation.
  apply (Permutation_count_occ Token_eq_dec).
  exact (shunting_yard_counts precedence tokens rpn H).
Qed.

Lemma name_not_punctuation (t : Token) :
  is_name t = true -> is_punctuation t = false.
Proof. now destruct t. Qed.

Lemma comparison_not_punctuation (t : Token) :
  is_binary_op t = true -> is_punctuation t = false.
Proof. now destruct t. Qed.

Lemma and_or_not_punctuation (t : Token) :
  is_and_or t = true -> is_punctuation t = false.
Proof. now destruct t. Qed.

(** *** Leaves of an output *)

Lemma last_over_app (a b : list Token) (t d : Token) :
  last (a ++ t :: b) d = last (t :: b) d.
Proof.
  induction a as [| u a IH]; [reflexivity |].
  rewrite <- IH. simpl. now destruct (a ++ t :: b) eqn:E; [destruct a |].
Qed.

Lemma ends_with_leaf_app (a b : list Token) :
  ends_with_leaf (a ++ b)
  = match b with [] => ends_with_leaf a | _ :: _ => ends_with_leaf b end.
Proof.
  unfold ends_with_leaf. destruct b as [| t b].
  - now rewrite app_nil_r.
  - now rewrite last_over_app.
Qed.

Lemma starts_with_comparison_app (a b : list Token) :
  starts_with_comparison (a ++ b)
  = match a with [] => starts_with_comparison b
    | _ :: _ => starts_with_comparison a end.
Proof. now destruct a. Qed.

Lemma leaves_app (a b : list Token) :
  leaves (a ++ b)
  + (if ends_with_leaf a && starts_with_comparison b then 1 else 0)
  = leaves a + leaves b.
Proof.
  induction a as [| t a IH]; [simpl; lia |].
  destruct a as [| u a].
  - unfold ends_with_leaf. cbn [app leaves last].
    destruct (is_leaf t), (starts_with_comparison b); simpl; lia.
  - change (ends_with_leaf (t :: u :: a)) with (ends_with_leaf (u :: a)).
    cbn [app leaves starts_with_comparison] in *. lia.
Qed.

Lemma stacked_not_leaf (t : Token) : is_stacked t = true -> is_leaf t = false.
Proof.
  destruct t; try reflexivity. unfold is_stacked, is_leaf.
  cbn [is_operator is_binary_op is_boolean_op type TokenType.eqb orb
       is_ident ident andb].
  rewrite !orb_false_r. unfold is_function. cbn [is_ident ident andb].
  destruct (String.eqb ident0 "all") eqn:E1.
  { apply String.eqb_eq in E1. subst. discriminate. }
  destruct (String.eqb ident0 "none") eqn:E2.
  { apply String.eqb_eq in E2. subst. discriminate. }
  reflexivity.
Qed.

Lemma leaves_none (l : list Token) :
  Forall (fun t => is_leaf t = false) l ->
  leaves l = 0 /\ ends_with_leaf l = false.
Proof.
  unfold ends_with_leaf. induction 1 as [| t l Ht _ [IH1 IH2]].
  - split; reflexivity.
  - split.
    + cbn [leaves]. now rewrite Ht, IH1.
    + destruct l; [exact Ht | exact IH2].
Qed.

Lemma stacked_no_leaf (l : list Token) :
  Forall (fun t => is_stacked t = true) l ->
  Forall (fun t => is_leaf t = false) l.
Proof. apply Forall_impl. exact stacked_not_leaf. Qed.

(** *** What the dispatcher accepts *)

Lemma balanced_not_empty (output : list Token) : balanced output -> output <> [].
Proof. intros (_ & H & _) ->. discriminate H. Qed.

Lemma balanced_leaf (t : Token) : is_leaf t = true -> balanced [t].
Proof.
  intros H. unfold balanced, count. cbn [leaves starts_with_comparison].
  rewrite H. destruct t; try discriminate. repeat split.
Qed.

Lemma balanced_comparison (op value property : Token) :
  is_binary_op op = true ->
  is_ident value || is_number value = true ->
  is_ident property = true ->
  is_leaf property = false ->
  balanced [property; value; op].
Proof.
  intros Hop Hv Hp Hl. unfold balanced, count.
  cbn [leaves starts_with_comparison filter]. rewrite Hl, Hop.
  destruct property; try discriminate.
  destruct value; try discriminate; destruct op; try discriminate;
    cbn; rewrite ?andb_false_r; repeat split.
Qed.

Lemma balanced_not (a : list Token) : balanced a -> balanced (a ++ [NOT]).
Proof.
  intros Ha. pose proof (balanced_not_empty a Ha) as Hne.
  destruct Ha as (H1 & H2 & H3). unfold balanced.
  rewrite !count_app, starts_with_comparison_app.
  pose proof (leaves_app a [NOT]) as L.
  rewrite andb_false_r in L.
  change (leaves [NOT]) with 0 in L.
  change (count is_name [NOT]) with 0.
  change (count is_binary_op [NOT]) with 0.
  change (count is_and_or [NOT]) with 0.
  destruct a; [contradiction |]. repeat split; try assumption; lia.
Qed.

Lemma balanced_and_or (a b : list Token) (c : Token) :
  balanced a -> balanced b -> is_and_or c = true ->
  balanced (a ++ b ++ [c]).
Proof.
  intros Ha Hb Hc.
  pose proof (balanced_not_empty a Ha) as Hna.
  pose proof (balanced_not_empty b Hb) as Hnb.
  destruct Ha as (A1 & A2 & A3), Hb as (B1 & B2 & B3). unfold balanced.
  rewrite !count_app, starts_with_comparison_app.
  pose proof (leaves_app a (b ++ [c])) as L1.
  pose proof (leaves_app b [c]) as L2.
  rewrite starts_with_comparison_app in L1.
  assert (starts_with_comparison [c] = false) as Sc by now destruct c.
  assert (leaves [c] = 0) as Lc by now destruct c.
  assert (count is_name [c] = 0) as Nc by now destruct c.
  assert (count is_binary_op [c] = 0) as Cc by now destruct c.
  assert (count is_and_or [c] = 1) as Bc by now destruct c.
  rewrite Sc, andb_false_r in L2.
  destruct a as [| ta a]; [contradiction |].
  destruct b as [| tb b]; [contradiction |].
  rewrite B1, andb_false_r in L1.
  repeat split; try assumption; lia.
Qed.

Lemma dispatch_binary_ret (begin : Token) (tail : list Token)
    (ast : Ast) (rest : list Token) :
  dispatch_binary begin (begin :: tail) = Ret (ast, rest) ->
  exists value property,
    tail = value :: property :: rest /\
    is_ident value || is_number value = true /\
    is_ident property = true /\
    is_leaf property = false.
Proof.
  unfold dispatch_binary.
  destruct tail as [| value [| property rest']]; try discriminate.
  cbn [length Nat.ltb Nat.leb orb nth].
  destruct property; try discriminate. cbn [type TokenType.eqb negb ident].
  unfold parse_IndexExpr, parse_MassExpr, parse_PositionExpr,
    parse_VelocityExpr, parse_NameExpr, parse_numeric.
  intros H. exists value, (IDENT ident0).
  assert (is_leaf (IDENT ident0) = false) as Hl.
  { unfold is_leaf. cbn [is_ident ident andb].
    revert H. string_cases; subst; try discriminate; reflexivity. }
  revert H. string_cases; subst; try discriminate;
    destruct begin; try discriminate; destruct value; try discriminate;
    intros [= _ <-]; repeat split; assumption.
Qed.

Lemma dispatch_ident_ret (begin : Token) (tail : list Token)
    (ast : Ast) (rest : list Token) :
  is_ident begin = true ->
  dispatch_ident begin (begin :: tail) = Ret (ast, rest) ->
  rest = tail /\ is_leaf begin = true.
Proof.
  intros Hi. unfold dispatch_ident, parse_AllExpr, parse_NoneExpr, is_leaf.
  rewrite Hi. cbn [tl andb].
  destruct (String.eqb (ident begin) "all").
  - now intros [= _ <-].
  - destruct (String.eqb (ident begin) "none"); [| discriminate].
    now intros [= _ <-].
Qed.

(** A range that the dispatcher reads a tree from starts with the tokens
    of the tree, which are balanced when taken in the order of the
    output. *)
Lemma dispatch_fuel_balanced (fuel : nat) :
  forall (rpn : list Token) (ast : Ast) (rest : list Token),
    dispatch_fuel fuel rpn = Some (Ret (ast, rest)) ->
    exists tree, rpn = tree ++ rest /\ balanced (rev tree).
Proof.
  induction fuel as [| fuel IH]; intros rpn ast rest H; [discriminate |].
  destruct rpn as [| begin tail]; [discriminate |].
  cbn [dispatch_fuel] in H.
  destruct (is_boolean_op begin) eqn:Hbool.
  - destruct begin; try discriminate Hbool; cbn [type] in H;
      unfold parse_NotExpr, parse_AndExpr, parse_OrExpr in H; cbn [tl] in H.
    + destruct (dispatch_fuel fuel tail) as [[[operand r1] | |] |] eqn:E1;
        try discriminate.
      cbn [fbind] in H. injection H as _ <-.
      destruct (IH _ _ _ E1) as (t1 & -> & B1).
      exists (NOT :: t1). split; [reflexivity |].
      cbn [rev]. now apply balanced_not.
    + destruct (dispatch_fuel fuel tail) as [[[rhs r1] | |] |] eqn:E1;
        try discriminate.
      cbn [fbind] in H.
      destruct (dispatch_fuel fuel r1) as [[[lhs r2] | |] |] eqn:E2;
        try discriminate.
      cbn [fbind] in H. injection H as _ <-.
      destruct (IH _ _ _ E1) as (t1 & -> & B1).
      destruct (IH _ _ _ E2) as (t2 & -> & B2).
      exists (AND :: t1 ++ t2). split; [cbn [app]; now rewrite app_assoc |].
      cbn [rev]. rewrite rev_app_distr, <- app_assoc.
      now apply balanced_and_or.
    + destruct (dispatch_fuel fuel tail) as [[[rhs r1] | |] |] eqn:E1;
        try discriminate.
      cbn [fbind] in H.
      destruct (dispatch_fuel fuel r1) as [[[lhs r2] | |] |] eqn:E2;
        try discriminate.
      cbn [fbind] in H. injection H as _ <-.
      destruct (IH _ _ _ E1) as (t1 & -> & B1).
      destruct (IH _ _ _ E2) as (t2 & -> & B2).
      exists (OR :: t1 ++ t2). split; [cbn [app]; now rewrite app_assoc |].
      cbn [rev]. rewrite rev_app_distr, <- app_assoc.
      now apply balanced_and_or.
  - destruct (is_binary_op begin) eqn:Hbin.
    + injection H as H.
      destruct (dispatch_binary_ret _ _ _ _ H) as (v & p & -> & Hv & Hp & Hl).
      exists [begin; v; p]. split; [reflexivity |].
      now apply balanced_comparison.
    + destruct (is_ident begin) eqn:Hid; [| discriminate].
      injection H as H.
      destruct (dispatch_ident_ret _ _ _ _ Hid H) as [-> Hl].
      exists [begin]. split; [reflexivity |]. now apply balanced_leaf.
Qed.

Lemma dispatch_parsing_fuel (rpn : list Token) :
  dispatch_fuel (S (length rpn)) rpn = Some (dispatch_parsing rpn).
Proof. apply dispatch_parsing_total. Qed.

Lemma dispatch_parsing_balanced (rpn : list Token) (ast : Ast) :
  dispatch_parsing rpn = Ret (ast, []) -> balanced (rev rpn).
Proof.
  intros H. pose proof (dispatch_parsing_fuel rpn) as F. rewrite H in F.
  destruct (dispatch_fuel_balanced _ _ _ _ F) as (tree & E & B).
  rewrite app_nil_r in E. now subst.
Qed.

(** *** A run above a stack that is not empty *)

Lemma comma_loop_matched (above below output : list Token) :
  Forall not_lparen above ->
  comma_loop (above ++ LPAREN :: below) output
  = Ret (LPAREN :: below, output ++ above).
Proof.
  intros H. revert output.
  induction H as [| t above Ht _ IH]; intros output.
  - simpl. now rewrite app_nil_r.
  - simpl. destruct (TokenType.eqb_spec (type t) T_LPAREN) as [E | _];
      [contradiction |].
    destruct (above ++ LPAREN :: below) as [| t' l'] eqn:E.
    + destruct above; discriminate.
    + now rewrite IH, push_back_app.
Qed.

Lemma operator_at_bottom_push (t : Token) (operators : list Token) :
  operator_at_bottom operators = true ->
  operator_at_bottom (t :: operators) = true.
Proof. destruct operators; [discriminate | trivial]. Qed.

Lemma operator_at_bottom_app (a b : list Token) (t : Token) :
  operator_at_bottom (a ++ t :: b) = operator_at_bottom (t :: b).
Proof. unfold operator_at_bottom. now rewrite last_over_app. Qed.

(** One turn of the main loop above the stack [base]: the turn pops and
    pushes what it does above an empty stack, and an operator that has
    popped the whole of its own stack goes on into [base]. *)
Lemma shunting_step_over_base (precedence : Token -> nat) (token : Token)
    (operators output operators' output' : list Token) :
  shunting_step precedence token operators output = Ret (operators', output') ->
  Forall (fun t => is_stacked t = true) operators ->
  forall base over_base : list Token,
  exists new popped kept,
    base = popped ++ kept /\
    output' = output ++ new /\
    shunting_step precedence token (operators ++ base) over_base
    = Ret (operators' ++ kept, over_base ++ new ++ popped) /\
    (operator_at_bottom operators = true ->
     operator_at_bottom operators' = true) /\
    (popped <> [] ->
     operator_at_bottom operators' = true /\
     Forall (fun t => is_stacked t = true) new /\
     (new = [] -> operator_at_bottom operators = false)).
Proof.
  intros H Hst base over_base. unfold shunting_step in *.
  destruct (is_number token || is_variable token) eqn:E1.
  { injection H as <- <-. exists [token], [], base.
    rewrite app_nil_r. repeat split; auto; contradiction. }
  destruct (is_ident token) eqn:E2.
  { destruct (is_function token) eqn:E3.
    - injection H as <- <-. exists [], [], base.
      rewrite !app_nil_r. repeat split; auto; try contradiction.
      apply operator_at_bottom_push.
    - injection H as <- <-. exists [token], [], base.
      rewrite app_nil_r. repeat split; auto; contradiction. }
  destruct (TokenType.eqb (type token) T_COMMA) eqn:E4.
  { destruct (comma_loop_ret _ _ _ _ H) as (above & below & -> & -> & -> & Ha).
    exists above, [], base. rewrite app_nil_r, <- app_assoc.
    cbn [app]. rewrite (comma_loop_matched _ _ _ Ha).
    repeat split; auto; try contradiction.
    now rewrite operator_at_bottom_app. }
  destruct (is_operator token) eqn:E5.
  { destruct (operator_loop_spec precedence token operators output)
      as (above & below & -> & E & Hge & Hlt).
    rewrite E in H. injection H as <- <-.
    destruct below as [| top below].
    - rewrite app_nil_r in *.
      destruct (operator_loop_spec precedence token base
                  (over_base ++ above))
        as (popped & kept & -> & _ & Hge' & Hlt').
      exists above, popped, kept.
      rewrite app_assoc.
      rewrite (operator_loop_pops precedence token (above ++ popped) kept).
      + rewrite <- ?app_assoc. repeat split; auto.
        intros ->. reflexivity.
      + apply Forall_app. now split.
      + destruct kept as [| k kept]; [exact I |]. now apply (Hlt' k kept).
    - exists above, [], base.
      rewrite <- app_assoc.
      rewrite (operator_loop_pops precedence token above
                 ((top :: below) ++ base)).
      + rewrite !app_nil_r. repeat split; auto; try contradiction.
        rewrite operator_at_bottom_app. intros Hb.
        now apply operator_at_bottom_push.
      + exact Hge.
      + cbn [app]. now apply (Hlt top below). }
  destruct (TokenType.eqb (type token) T_LPAREN) eqn:E6.
  { injection H as <- <-. exists [], [], base.
    rewrite !app_nil_r. repeat split; auto; try contradiction.
    apply operator_at_bottom_push. }
  destruct (TokenType.eqb (type token) T_RPAREN) eqn:E7.
  { destruct (rparen_step_cases operators output)
      as [(above & below & -> & Ha & E) | [_ E]];
      rewrite E in H; [| discriminate].
    injection H as <- <-. exists above, [], base.
    rewrite app_nil_r, <- app_assoc. cbn [app].
    rewrite (rparen_step_matched _ _ _ Ha).
    repeat split; auto; try contradiction.
    rewrite operator_at_bottom_app.
    destruct below; [discriminate | trivial]. }
  injection H as <- <-. exists [], [], base.
  rewrite !app_nil_r. repeat split; auto; contradiction.
Qed.

Lemma follows_start (output : list Token) : follows [] output output.
Proof. split; [trivial | simpl; lia]. Qed.

Lemma follows_step
    (operators operators' alone over_base new popped : list Token) :
  follows operators alone over_base ->
  Forall (fun t => is_leaf t = false) popped ->
  (operator_at_bottom operators = true ->
   operator_at_bottom operators' = true) ->
  (popped <> [] ->
   operator_at_bottom operators' = true /\
   Forall (fun t => is_stacked t = true) new /\
   (new = [] -> operator_at_bottom operators = false)) ->
  follows operators' (alone ++ new) (over_base ++ new ++ popped).
Proof.
  intros [He Hl] Hp Hkeep Hpop.
  pose proof (leaves_app alone new) as LA.
  pose proof (leaves_app over_base new) as LO.
  pose proof (leaves_app (over_base ++ new) popped) as LP.
  destruct (leaves_none popped Hp) as [Lp Ep]. rewrite Lp in LP.
  rewrite <- app_assoc in LP.
  destruct popped as [| b popped].
  - rewrite !app_nil_r in *. split.
    + rewrite !ends_with_leaf_app. now destruct new.
    + rewrite andb_false_r in LP.
      destruct (operator_at_bottom operators);
        [rewrite (Hkeep eq_refl) |];
        destruct (ends_with_leaf over_base);
        [rewrite (He eq_refl) in LA | | rewrite (He eq_refl) in LA |];
        destruct (ends_with_leaf alone), (starts_with_comparison new),
          (operator_at_bottom operators'); cbn [andb] in *; lia.
  - destruct Hpop as (Hb & Hn & Hempty); [discriminate |]. split.
    + rewrite app_assoc, ends_with_leaf_app. now rewrite Ep.
    + rewrite Hb. destruct new as [| n new].
      * rewrite (Hempty eq_refl) in Hl. rewrite !app_nil_r in *.
        destruct (ends_with_leaf over_base && starts_with_comparison (b :: popped));
          cbn [app] in *; lia.
      * destruct (leaves_none _ (stacked_no_leaf _ Hn)) as [_ En].
        rewrite ends_with_leaf_app, En in LP. cbn [andb] in LP.
        destruct (ends_with_leaf over_base);
          [rewrite (He eq_refl) in LA |];
          destruct (ends_with_leaf alone),
            (starts_with_comparison (n :: new)),
            (operator_at_bottom operators); cbn [andb] in *; lia.
Qed.

(** The main loop above [base]: it ends with the stack it ends with above
    an empty stack, on top of what it has left of [base]. *)
Lemma shunting_loop_over_base (precedence : Token -> nat)
    (tokens : list Token) :
  forall operators output operators' output',
    shunting_loop precedence tokens operators output
    = Ret (operators', output') ->
    Forall (fun t => is_stacked t = true) operators ->
    forall base before over_base : list Token,
      Forall (fun t => is_leaf t = false) base ->
      follows operators (before ++ output) over_base ->
      exists popped kept over_base',
        base = popped ++ kept /\
        shunting_loop precedence tokens (operators ++ base) over_base
        = Ret (operators' ++ kept, over_base') /\
        follows operators' (before ++ output') over_base'.
Proof.
  induction tokens as [| token tokens IH];
    intros operators output operators' output' H Hst base before over_base
      Hbase Hf.
  - injection H as <- <-. exists [], base, over_base. auto.
  - cbn [shunting_loop] in *.
    destruct (shunting_step precedence token operators output)
      as [[operators1 output1] | |] eqn:E; try discriminate.
    cbn [bind] in H.
    destruct (shunting_step_over_base _ _ _ _ _ _ E Hst base over_base)
      as (new & popped & kept & -> & -> & Estep & Hkeep & Hpop).
    apply Forall_app in Hbase as [Hpopped Hkept].
    pose proof (follows_step _ _ _ _ _ _ Hf Hpopped Hkeep Hpop) as Hf1.
    rewrite <- app_assoc in Hf1.
    destruct (shunting_step_stacked _ _ _ _ _ _ E Hst) as [Hst1 _].
    destruct (IH _ _ _ _ H Hst1 kept before _ Hkept Hf1)
      as (popped' & kept' & over_base' & -> & Eloop & Hf').
    exists (popped ++ popped'), kept', over_base'.
    rewrite Estep. cbn [bind]. rewrite Eloop, <- app_assoc. auto.
Qed.

Lemma follows_drain (operators alone over_base kept : list Token) :
  follows operators alone over_base ->
  Forall (fun t => is_stacked t = true) operators ->
  Forall (fun t => is_leaf t = false) kept ->
  leaves (alone ++ operators) <= leaves (over_base ++ operators ++ kept) + 1.
Proof.
  intros Hf Hst Hkept.
  assert (follows [AND] (alone ++ operators)
            (over_base ++ operators ++ kept)) as [_ H].
  { apply (follows_step operators); auto.
    intros _. repeat split; auto. intros ->. reflexivity. }
  exact H.
Qed.

Lemma no_paren_app (a b : list Token) :
  Forall (fun t => type t <> T_LPAREN /\ type t <> T_RPAREN) a ->
  Forall (fun t => type t <> T_LPAREN /\ type t <> T_RPAREN) b ->
  forall output, drain (a ++ b) output = Ret (output ++ a ++ b).
Proof.
  intros Ha Hb output.
  destruct (drain_cases (a ++ b) output) as [[_ E] | [Hex _]]; [exact E |].
  exfalso. apply Exists_app in Hex as [Hex | Hex];
    apply Exists_exists in Hex as (t & Hin & Ht);
    [ apply (proj1 (Forall_forall _ _) Ha) in Hin
    | apply (proj1 (Forall_forall _ _) Hb) in Hin ]; tauto.
Qed.

(** The reducer on two accepted streams put side by side, with nothing or
    with one [EQ] between them: it returns, and of the [all] and [none]
    that stood on their own in the two outputs at most one is followed by
    a comparison in the output of the whole. *)
Lemma shunting_yard_side_by_side (precedence : Token -> nat)
    (first second join operators1 output1 operators2 output2 : list Token) :
  shunting_loop precedence first [] [] = Ret (operators1, output1) ->
  drain operators1 output1 = Ret (output1 ++ operators1) ->
  shunting_loop precedence second [] [] = Ret (operators2, output2) ->
  drain operators2 output2 = Ret (output2 ++ operators2) ->
  starts_with_comparison (output2 ++ operators2) = false ->
  join = [] \/ join = [EQ] ->
  exists whole,
    shunting_yard precedence (first ++ join ++ second) = Ret (rev whole) /\
    leaves (output1 ++ operators1) + leaves (output2 ++ operators2)
    <= leaves whole + 1.
Proof.
  intros L1 D1 L2 D2 Hstart Hjoin.
  destruct (shunting_loop_stacked _ _ _ _ _ _ L1 (Forall_nil _)) as [S1 _].
  destruct (shunting_loop_stacked _ _ _ _ _ _ L2 (Forall_nil _)) as [S2 _].
  destruct (drain_ret _ _ _ D1) as [_ P1].
  destruct (drain_ret _ _ _ D2) as [_ P2].
  assert (exists base before,
             shunting_loop precedence (first ++ join) [] []
             = Ret (base, before) /\
             Forall (fun t => is_leaf t = false) base /\
             Forall (fun t => type t <> T_LPAREN /\ type t <> T_RPAREN) base /\
             leaves (output1 ++ operators1) <= leaves before)
    as (base & before & Lj & Hleaf & Hparen & Hle).
  { rewrite shunting_loop_app, L1. cbn [bind].
    destruct Hjoin as [-> | ->].
    - exists operators1, output1. repeat split; auto.
      + now apply stacked_no_leaf.
      + pose proof (leaves_app output1 operators1) as L.
        destruct (leaves_none _ (stacked_no_leaf _ S1)) as [Z _]. lia.
    - cbn [shunting_loop shunting_step is_number is_variable is_ident orb
           type TokenType.eqb is_operator is_binary_op].
      destruct (operator_loop_spec precedence EQ operators1 output1)
        as (popped & kept & -> & E & _ & _).
      rewrite E. cbn [bind].
      apply Forall_app in S1 as [Sp Sk]. apply Forall_app in P1 as [_ Pk].
      exists (EQ :: kept), (output1 ++ popped). repeat split.
      + constructor; [reflexivity | now apply stacked_no_leaf].
      + constructor; [split; discriminate | exact Pk].
      + rewrite app_assoc.
        pose proof (leaves_app (output1 ++ popped) kept) as L.
        destruct (leaves_none _ (stacked_no_leaf _ Sk)) as [Z _]. lia. }
  destruct (shunting_loop_over_base precedence second [] [] _ _ L2
              (Forall_nil _) base before before Hleaf)
    as (popped & kept & over_base & -> & Lo & Hf).
  { rewrite app_nil_r. apply follows_start. }
  exists (over_base ++ operators2 ++ kept). split.
  - unfold shunting_yard.
    rewrite app_assoc, shunting_loop_app, Lj. cbn [bind].
    cbn [app] in Lo. rewrite Lo. cbn [bind].
    apply Forall_app in Hparen as [_ Pk].
    now rewrite (no_paren_app _ _ P2 Pk).
  - apply Forall_app in Hleaf as [_ Lk].
    pose proof (follows_drain _ _ _ _ Hf S2 Lk) as Hd.
    rewrite <- app_assoc in Hd.
    pose proof (leaves_app before (output2 ++ operators2)) as L.
    rewrite Hstart, andb_false_r in L. lia.
Qed.

(** *** Ranges that the dispatcher runs out of *)

Lemma count_cons (f : Token -> bool) (t : Token) (l : list Token) :
  count f (t :: l) = (if f t then 1 else 0) + count f l.
Proof. unfold count. simpl. now destruct (f t). Qed.

Lemma dispatch_binary_defined (begin : Token) (rpn : list Token) :
  dispatch_binary begin rpn <> Undefined.
Proof.
  unfold dispatch_binary, parse_IndexExpr, parse_MassExpr,
    parse_PositionExpr, parse_VelocityExpr, parse_NameExpr, parse_numeric.
  repeat match goal with
         | |- context [if ?c then _ else _] => destruct c
         | |- context [match ?x with _ => _ end] => destruct x
         end; discriminate.
Qed.

Lemma dispatch_ident_defined (begin : Token) (rpn : list Token) :
  dispatch_ident begin rpn <> Undefined.
Proof.
  unfold dispatch_ident, parse_AllExpr, parse_NoneExpr.
  repeat match goal with
         | |- context [if ?c then _ else _] => destruct c
         end; discriminate.
Qed.

(** The dispatcher reads past the end of a range only when the range holds
    no more names than operators with two operands. *)
Lemma dispatch_fuel_undefined (fuel : nat) :
  forall rpn : list Token,
    dispatch_fuel fuel rpn = Some Undefined ->
    count is_name rpn <= count is_binary_op rpn + count is_and_or rpn.
Proof.
  induction fuel as [| fuel IH]; intros rpn H; [discriminate |].
  destruct rpn as [| begin tail]; [unfold count; simpl; lia |].
  cbn [dispatch_fuel] in H.
  destruct (is_boolean_op begin) eqn:Hbool.
  - destruct begin; try discriminate Hbool; cbn [type] in H;
      unfold parse_NotExpr, parse_AndExpr, parse_OrExpr in H; cbn [tl] in H;
      rewrite !count_cons; cbn [is_name is_ident is_number is_variable orb
                                is_binary_op is_and_or];
      destruct (dispatch_fuel fuel tail) as [[[rhs r1] | |] |] eqn:E1;
      try discriminate; cbn [fbind] in H;
      try (specialize (IH tail E1); lia).
    all: destruct (dispatch_fuel fuel r1) as [[[lhs r2] | |] |] eqn:E2;
      try discriminate.
    all: destruct (dispatch_fuel_balanced _ _ _ _ E1)
        as (tree & -> & _ & Hn & _).
    all: rewrite !count_rev in Hn; specialize (IH r1 E2);
      rewrite !count_app; lia.
  - destruct (is_binary_op begin).
    + injection H as H. now apply dispatch_binary_defined in H.
    + destruct (is_ident begin); [| discriminate].
      injection H as H. now apply dispatch_ident_defined in H.
Qed.

Lemma dispatch_parsing_undefined (rpn : list Token) :
  dispatch_parsing rpn = Undefined ->
  count is_name rpn <= count is_binary_op rpn + count is_and_or rpn.
Proof.
  intros H. apply (dispatch_fuel_undefined (S (length rpn))).
  rewrite <- H. apply dispatch_parsing_fuel.
Qed.

(** *** The rewriter on two streams *)

Lemma clean_token_stream_app (first second : list Token) :
  clean_token_stream (first ++ second)
  = clean_token_stream first ++ clean_token_stream second \/
  clean_token_stream (first ++ second)
  = clean_token_stream first ++ EQ :: clean_token_stream second.
Proof.
  induction first as [| a first IH]; [now left |].
  destruct first as [| b first].
  - cbn [app clean_token_stream].
    destruct (is_ident a && have_short_form (ident a)); [| now left].
    destruct second as [| next second]; [now left |].
    destruct (negb (is_operator next)); [now right | now left].
  - change ((a :: b :: first) ++ second) with (a :: b :: (first ++ second)).
    change (clean_token_stream (a :: b :: first ++ second))
      with (if is_ident a && have_short_form (ident a)
            then if negb (is_operator b)
                 then a :: EQ :: clean_token_stream ((b :: first) ++ second)
                 else a :: clean_token_stream ((b :: first) ++ second)
            else a :: clean_token_stream ((b :: first) ++ second)).
    change (clean_token_stream (a :: b :: first))
      with (if is_ident a && have_short_form (ident a)
            then if negb (is_operator b)
                 then a :: EQ :: clean_token_stream (b :: first)
                 else a :: clean_token_stream (b :: first)
            else a :: clean_token_stream (b :: first)).
    destruct (is_ident a && have_short_form (ident a));
      [destruct (negb (is_operator b)) |];
      destruct IH as [-> | ->]; auto.
Qed.

(** *** Accepted selections *)

Lemma parse_ret (precedence : Token -> nat) (stream : list Token) (ast : Ast) :
  parse precedence stream = Ret ast ->
  exists rpn,
    shunting_yard precedence (clean_token_stream stream) = Ret rpn /\
    dispatch_parsing rpn = Ret (ast, []).
Proof.
  unfold parse.
  destruct (shunting_yard precedence (clean_token_stream stream))
    as [rpn | |]; try discriminate.
  cbn [bind].
  destruct (dispatch_parsing rpn) as [[a [| t rest]] | |] eqn:Hd;
    try discriminate.
  cbn [bind]. intros [= ->]. now exists rpn.
Qed.

Lemma parse_ret_run (precedence : Token -> nat) (stream : list Token)
    (ast : Ast) :
  parse precedence stream = Ret ast ->
  exists operators output,
    shunting_loop precedence (clean_token_stream stream) [] []
    = Ret (operators, output) /\
    drain operators output = Ret (output ++ operators) /\
    shunting_yard precedence (clean_token_stream stream)
    = Ret (rev (output ++ operators)) /\
    balanced (output ++ operators).
Proof.
  intros H. destruct (parse_ret _ _ _ H) as (rpn & Hs & Hd).
  destruct (shunting_yard_ret _ _ _ Hs) as (operators & output & L & D & ->).
  exists operators, output.
  apply dispatch_parsing_balanced in Hd. rewrite rev_involutive in Hd.
  auto.
Qed.

(** Two accepted selections put side by side make a selection that is
    rejected with a [SelectionError], under every precedence table. *)
Lemma parse_side_by_side (precedence : Token -> nat)
    (first second : list Token) (a1 a2 : Ast) :
  parse precedence first = Ret a1 ->
  parse precedence second = Ret a2 ->
  throws (parse precedence (first ++ second)).
Proof.
  intros H1 H2.
  destruct (parse_ret_run _ _ _ H1) as (ops1 & out1 & L1 & D1 & Y1 & B1).
  destruct (parse_ret_run _ _ _ H2) as (ops2 & out2 & L2 & D2 & Y2 & B2).
  assert (exists join,
             (join = [] \/ join = [EQ]) /\
             clean_token_stream (first ++ second)
             = clean_token_stream first ++ join ++ clean_token_stream second)
    as (join & Hjoin & Hclean).
  { destruct (clean_token_stream_app first second) as [E | E].
    - exists []. auto.
    - exists [EQ]. auto. }
  destruct (shunting_yard_side_by_side precedence _ _ join _ _ _ _
              L1 D1 L2 D2 (proj1 B2) Hjoin) as (whole & Y & Hle).
  assert (forall f, (forall t, f t = true -> is_punctuation t = false) ->
                    count f whole
                    = count f (out1 ++ ops1) + count f join
                      + count f (out2 ++ ops2)) as Hcount.
  { intros f Hf.
    rewrite <- (count_rev f whole), <- (count_rev f (out1 ++ ops1)),
      <- (count_rev f (out2 ++ ops2)).
    rewrite (count_shunting_yard precedence f _ _ Hf Y),
      (count_shunting_yard precedence f _ _ Hf Y1),
      (count_shunting_yard precedence f _ _ Hf Y2).
    rewrite !count_app. lia. }
  pose proof (Hcount _ name_not_punctuation) as Cn.
  pose proof (Hcount _ comparison_not_punctuation) as Cc.
  pose proof (Hcount _ and_or_not_punctuation) as Cb.
  destruct B1 as (_ & N1 & M1), B2 as (_ & N2 & M2).
  unfold throws, parse. rewrite Hclean, Y. cbn [bind].
  destruct (dispatch_parsing (rev whole)) as [[ast [| t rest]] | e |] eqn:Hd;
    cbn [bind].
  - exfalso. apply dispatch_parsing_balanced in Hd.
    rewrite rev_involutive in Hd. destruct Hd as (_ & N & M).
    destruct Hjoin as [-> | ->];
      change (count is_name []) with 0 in *;
      change (count is_binary_op []) with 0 in *;
      change (count is_and_or []) with 0 in *;
      change (count is_name [EQ]) with 0 in *;
      change (count is_binary_op [EQ]) with 1 in *;
      change (count is_and_or [EQ]) with 0 in *; lia.
  - now exists CouldNotParseEnd.
  - now exists e.
  - exfalso. apply dispatch_parsing_undefined in Hd.
    rewrite !count_rev in Hd.
    destruct Hjoin as [-> | ->];
      change (count is_name []) with 0 in *;
      change (count is_binary_op []) with 0 in *;
      change (count is_and_or []) with 0 in *;
      change (count is_name [EQ]) with 0 in *;
      change (count is_binary_op [EQ]) with 1 in *;
      change (count is_and_or [EQ]) with 0 in *; lia.
Qed.

(** *** The errors of the two stages *)

Lemma shunting_step_not_end (precedence : Token -> nat) (token : Token)
    (operators output : list Token) :
  shunting_step precedence token operators output <> Throw CouldNotParseEnd.
Proof.
  unfold shunting_step.
  destruct (is_number token || is_variable token); [discriminate |].
  destruct (is_ident token);
    [destruct (is_function token); discriminate |].
  destruct (TokenType.eqb (type token) T_COMMA).
  { destruct (comma_loop_cases operators output)
      as [[_ ->] | [(_ & _ & ->) | (above & below & _ & _ & ->)]];
      discriminate. }
  destruct (is_operator token).
  { now destruct (operator_loop precedence token operators output). }
  destruct (TokenType.eqb (type token) T_LPAREN); [discriminate |].
  destruct (TokenType.eqb (type token) T_RPAREN); [| discriminate].
  destruct (rparen_step_cases operators output)
    as [(above & below & _ & _ & ->) | [_ ->]]; discriminate.
Qed.

Lemma shunting_yard_not_end (precedence : Token -> nat) (tokens : list Token) :
  shunting_yard precedence tokens <> Throw CouldNotParseEnd.
Proof.
  unfold shunting_yard.
  assert (forall operators output,
             shunting_loop precedence tokens operators output
             <> Throw CouldNotParseEnd) as Hloop.
  { induction tokens as [| token tokens IH]; intros operators output;
      [discriminate |].
    cbn [shunting_loop].
    pose proof (shunting_step_not_end precedence token operators output) as N.
    destruct (shunting_step precedence token operators output)
      as [[operators' output'] | e |]; cbn [bind];
      [apply IH | congruence | discriminate]. }
  specialize (Hloop [] []).
  destruct (shunting_loop precedence tokens [] [])
    as [[operators output] | e |]; cbn [bind];
    [| congruence | discriminate].
  destruct (drain_cases operators output) as [[_ ->] | [_ ->]];
    discriminate.
Qed.

Lemma constructors_not_end (begin : Token) (rpn : list Token) :
  dispatch_binary begin rpn <> Throw CouldNotParseEnd /\
  dispatch_ident begin rpn <> Throw CouldNotParseEnd.
Proof.
  split.
  - unfold dispatch_binary, parse_IndexExpr, parse_MassExpr,
      parse_PositionExpr, parse_VelocityExpr, parse_NameExpr, parse_numeric.
    repeat match goal with
           | |- context [if ?c then _ else _] => destruct c
           | |- context [match ?x with _ => _ end] => destruct x
           end; discriminate.
  - unfold dispatch_ident, parse_AllExpr, parse_NoneExpr.
    repeat match goal with
           | |- context [if ?c then _ else _] => destruct c
           end; discriminate.
Qed.

Lemma dispatch_fuel_not_end (fuel : nat) :
  forall rpn, dispatch_fuel fuel rpn <> Some (Throw CouldNotParseEnd).
Proof.
  induction fuel as [| fuel IH]; intros rpn; [discriminate |].
  destruct rpn as [| begin rpn']; [discriminate |].
  cbn [dispatch_fuel].
  destruct (constructors_not_end begin (begin :: rpn')) as [Hb Hi].
  destruct (is_boolean_op begin) eqn:Hbool.
  - destruct begin; try discriminate Hbool; cbn [type];
      unfold parse_NotExpr, parse_AndExpr, parse_OrExpr; cbn [tl];
      repeat match goal with
             | |- context [fbind (dispatch_fuel fuel ?l) _] =>
                 let H := fresh "H" in
                 pose proof (IH l) as H;
                 destruct (dispatch_fuel fuel l) as [[[? ?] | ? |] |];
                 cbn [fbind]
             end;
      first [discriminate | assumption].
  - destruct (is_binary_op begin); [congruence |].
    destruct (is_ident begin); [congruence | discriminate].
Qed.

Lemma dispatch_parsing_not_end (rpn : list Token) :
  dispatch_parsing rpn <> Throw CouldNotParseEnd.
Proof.
  intros H. apply (dispatch_fuel_not_end (S (length rpn)) rpn).
  rewrite <- H. apply dispatch_parsing_fuel.
Qed.

(** "Could not parse the end of the selection." is the error of the test
    at the end of [parse] and of nothing else: it is thrown exactly when
    both stages have returned and the dispatcher has left a token. *)
Lemma parse_end_error (precedence : Token -> nat) (stream : list Token) :
  parse precedence stream = Throw CouldNotParseEnd <->
  exists rpn ast t rest,
    shunting_yard precedence (clean_token_stream stream) = Ret rpn /\
    dispatch_parsing rpn = Ret (ast, t :: rest).
Proof.
  split.
  - unfold parse.
    pose proof (shunting_yard_not_end precedence
                  (clean_token_stream stream)) as Ns.
    destruct (shunting_yard precedence (clean_token_stream stream))
      as [rpn | e |] eqn:Hs; cbn [bind]; [| congruence | discriminate].
    pose proof (dispatch_parsing_not_end rpn) as Nd.
    destruct (dispatch_parsing rpn) as [[ast [| t rest]] | e |] eqn:Hd;
      cbn [bind]; [discriminate | | congruence | discriminate].
    intros _. now exists rpn, ast, t, rest.
  - intros (rpn & ast & t & rest & Hs & Hd).
    now rewrite (parse_unfold precedence stream rpn ast (t :: rest) Hs Hd).
Qed.

(** The tokens of [name == foo index == 1] under an arbitrary table: the
    dispatcher throws before the end of the range is looked at. *)
Lemma parse_two_comparisons (precedence : Token -> nat) :
  exists e,
    parse precedence
      [IDENT "name"; EQ; IDENT "foo"; IDENT "index"; EQ; NUMBER 1]
    = Throw e /\
    e <> CouldNotParseEnd.
Proof.
  unfold parse, shunting_yard.
  destruct (precedence EQ <=? precedence (IDENT "name")) eqn:Hname;
    destruct (precedence EQ <=? precedence (IDENT "index")) eqn:Hindex;
    cbn; rewrite ?Hname, ?Hindex, ?Nat.leb_refl;
    cbn; rewrite ?Hname, ?Hindex, ?Nat.leb_refl;
    cbn; rewrite ?Hname, ?Hindex, ?Nat.leb_refl;
    cbn; eexists; (split; [reflexivity | discriminate]).
Qed.

(** C5, as amended.  Once the reducer has given the range [rpn] and the
    dispatcher has built the root node from it, [parse] throws "Could not
    parse the end of the selection." exactly when tokens are left in the
    range, and returns the node otherwise; no other place throws this
    error.  Two accepted selections put side by side, with no connective
    between them, are always rejected with a [SelectionError] and never
    accepted, under every precedence table.  The error is not always the
    one of the end of the range: [all all] is rejected by that test, while
    for the tokens of [name == foo index == 1] the dispatcher throws before
    any root node is built, so that the test is not reached ("Bad binary
    operation around ==" under the precedences of the specification). *)
Theorem C5_parse_rejects_trailing_tokens :
  (forall precedence : Token -> nat,
      (forall (stream rpn : list Token) (ast : Ast) (rest : list Token),
          shunting_yard precedence (clean_token_stream stream) = Ret rpn ->
          dispatch_parsing rpn = Ret (ast, rest) ->
          (parse precedence stream = Throw CouldNotParseEnd <-> rest <> []) /\
          (parse precedence stream = Ret ast <-> rest = [])) /\
      (forall stream : list Token,
          parse precedence stream = Throw CouldNotParseEnd <->
          exists rpn ast t rest,
            shunting_yard precedence (clean_token_stream stream) = Ret rpn /\
            dispatch_parsing rpn = Ret (ast, t :: rest)) /\
      (forall (first second : list Token) (a1 a2 : Ast),
          parse precedence first = Ret a1 ->
          parse precedence second = Ret a2 ->
          throws (parse precedence (first ++ second)) /\
          forall ast, parse precedence (first ++ second) <> Ret ast) /\
      parse precedence [IDENT "all"; IDENT "all"] = Throw CouldNotParseEnd /\
      (exists e,
          parse precedence
            [IDENT "name"; EQ; IDENT "foo"; IDENT "index"; EQ; NUMBER 1]
          = Throw e /\
          e <> CouldNotParseEnd)) /\
  parse spec_precedence
    [IDENT "name"; EQ; IDENT "foo"; IDENT "index"; EQ; NUMBER 1]
  = Throw (BadBinaryOperation EQ).
Proof.
  split; [| reflexivity].
  intros precedence. split; [| split; [| split; [| split]]].
  - intros stream rpn ast rest Hs Hd.
    rewrite (parse_unfold precedence stream rpn ast rest Hs Hd).
    destruct rest; split; split; congruence.
  - apply parse_end_error.
  - intros first second a1 a2 H1 H2.
    destruct (parse_side_by_side precedence first second a1 a2 H1 H2)
      as [e He].
    split; [now exists e | intros ast; congruence].
  - reflexivity.
  - apply parse_two_comparisons.
Qed.

(** The theorem at two pairs of accepted selections: [name == foo] with
    [index == 1], where the rewriter adds nothing between the two, and
    [name name] with [all], where it adds an [EQ] after the second
    [name]. *)
Lemma C5_parse_rejects_trailing_tokens_witness :
  parse spec_precedence [IDENT "name"; EQ; IDENT "foo"]
  = Ret (NameExpr OpEq "foo") /\
  parse spec_precedence [IDENT "index"; EQ; NUMBER 1]
  = Ret (IndexExpr OpEq 1) /\
  throws (parse spec_precedence
            ([IDENT "name"; EQ; IDENT "foo"]
             ++ [IDENT "index"; EQ; NUMBER 1])) /\
  parse spec_precedence [IDENT "name"; IDENT "name"]
  = Ret (NameExpr OpEq "name") /\
  parse spec_precedence [IDENT "all"] = Ret AllExpr /\
  throws (parse spec_precedence
            ([IDENT "name"; IDENT "name"] ++ [IDENT "all"])).
Proof.
  destruct C5_parse_rejects_trailing_tokens as [H _].
  destruct (H spec_precedence) as (_ & _ & Hside & _).
  repeat split; try reflexivity.
  - apply (Hside [IDENT "name"; EQ; IDENT "foo"]
             [IDENT "index"; EQ; NUMBER 1]
             (NameExpr OpEq "foo") (IndexExpr OpEq 1)); reflexivity.
  - apply (Hside [IDENT "name"; IDENT "name"] [IDENT "all"]
             (NameExpr OpEq "name") AllExpr); reflexivity.
Defined.

(** The two comparisons [name == foo] and [index == 1] are accepted each
    on its own.  Side by side they are reduced to the range
    [== 1 == index foo name], on which the dispatcher throws "Bad binary
    operation around ==": no root node is built and the test at the end of
    [parse] is not what rejects the selection, under any precedence
    table. *)
Lemma C5_two_comparisons_counterexample :
  parse spec_precedence [IDENT "name"; EQ; IDENT "foo"]
  = Ret (NameExpr OpEq "foo") /\
  parse spec_precedence [IDENT "index"; EQ; NUMBER 1]
  = Ret (IndexExpr OpEq 1) /\
  shunting_yard spec_precedence
    (clean_token_stream
       [IDENT "name"; EQ; IDENT "foo"; IDENT "index"; EQ; NUMBER 1])
  = Ret [EQ; NUMBER 1; EQ; IDENT "index"; IDENT "foo"; IDENT "name"] /\
  dispatch_parsing
    [EQ; NUMBER 1; EQ; IDENT "index"; IDENT "foo"; IDENT "name"]
  = Throw (BadBinaryOperation EQ) /\
  parse spec_precedence
    [IDENT "name"; EQ; IDENT "foo"; IDENT "index"; EQ; NUMBER 1]
  = Throw (BadBinaryOperation EQ) /\
  parse spec_precedence
    [IDENT "name"; EQ; IDENT "foo"; IDENT "index"; EQ; NUMBER 1]
  <> Throw CouldNotParseEnd /\
  (forall precedence : Token -> nat,
      parse precedence
        [IDENT "name"; EQ; IDENT "foo"; IDENT "index"; EQ; NUMBER 1]
      <> Throw CouldNotParseEnd).
Proof.
  repeat split; try reflexivity; try discriminate.
  intros precedence H.
  destruct (parse_two_comparisons precedence) as (e & He & Ne). congruence.
Qed.
